(** * Verification of the leddoo cell engines of 3d_celluar_automata

    Shallow embedding of the dense-grid cellular automaton engines of the
    repository: [LeddooSingleThreaded] (cells/leddoo/single_threaded.rs),
    [LeddooMultiThreaded] with its [Chunks] store (cells/leddoo/multi_threaded.rs,
    cells/leddoo/mod.rs) and [LeddooAtomic] (cells/leddoo/atomic.rs), together
    with the rule bitsets (rule.rs) and neighbour tables (neighbours.rs).

    Conventions:
    - [i32], [usize] and [u8] values are [Z]; [u8] arithmetic wraps modulo 256
      ([u8] below), as the atomic [fetch_add]/[fetch_sub] always do and as the
      plain [+= 1]/[-= 1] do in release builds.
    - A [Vec] that is only ever read and written in range is a total function
      from its index to its element; its length is recorded where the code
      iterates over it.
    - A Rust panic is [None] in an [option]-valued definition.
    - Tasks spawned on the task pool within one phase touch disjoint memory or
      commute (see [phaseB_perm] below); they are run here in spawn order. *)

From Stdlib Require Import ZArith List Lia Bool Permutation.
From Stdlib Require Import FunctionalExtensionality.
Import ListNotations.
Open Scope Z_scope.

(** ** Machine integers and ranges *)

(** [u8] wrap-around. *)
Definition u8 (v : Z) : Z := v mod 256.

(** [lo, lo + p) as a list, built by halving the length so that the list of
    the [CHUNK_CELL_COUNT] offsets stays a shallow term. *)
Fixpoint prange (lo : Z) (p : positive) : list Z :=
  match p with
  | xH => [lo]
  | xO q => prange lo q ++ prange (lo + Z.pos q) q
  | xI q => lo :: (prange (lo + 1) q ++ prange (lo + 1 + Z.pos q) q)
  end.

(** Rust's [lo..hi]. *)
Definition zrange (lo hi : Z) : list Z :=
  match hi - lo with
  | Z.pos p => prange lo p
  | _ => []
  end.

(** A loop whose body may panic. *)
Fixpoint fold_opt {S A : Type} (f : S -> A -> option S) (l : list A) (s : S)
  : option S :=
  match l with
  | [] => Some s
  | a :: l' => match f s a with
               | None => None
               | Some s' => fold_opt f l' s'
               end
  end.

(** ** bevy's [IVec3] *)

Record IVec3 := ivec3 { px : Z; py : Z; pz : Z }.

Definition vadd (a b : IVec3) : IVec3 :=
  ivec3 (px a + px b) (py a + py b) (pz a + pz b).

(** [s * v] for a scalar [s]. *)
Definition vscale (s : Z) (a : IVec3) : IVec3 :=
  ivec3 (s * px a) (s * py a) (s * pz a).

(** [v % s] and [v / s] on [IVec3]: Rust's truncating [i32] operators. *)
Definition vrem (a : IVec3) (s : Z) : IVec3 :=
  ivec3 (Z.rem (px a) s) (Z.rem (py a) s) (Z.rem (pz a) s).

Definition vquot (a : IVec3) (s : Z) : IVec3 :=
  ivec3 (Z.quot (px a) s) (Z.quot (py a) s) (Z.quot (pz a) s).

Definition vec_eqb (a b : IVec3) : bool :=
  (px a =? px b) && (py a =? py b) && (pz a =? pz b).

(** Inside the cube [[0, b)^3]. *)
Definition in_box (b : Z) (p : IVec3) : Prop :=
  0 <= px p < b /\ 0 <= py p < b /\ 0 <= pz p < b.

(** ** neighbours.rs *)

Inductive NeighbourMethod := Moore | VonNeuman.

Definition VONNEUMAN_NEIGHBOURS : list IVec3 :=
  [ ivec3 1 0 0; ivec3 (-1) 0 0; ivec3 0 1 0; ivec3 0 (-1) 0;
    ivec3 0 0 (-1); ivec3 0 0 1 ].

Definition MOOSE_NEIGHBOURS : list IVec3 :=
  [ ivec3 (-1) (-1) (-1); ivec3 0 (-1) (-1); ivec3 1 (-1) (-1);
    ivec3 (-1) 0 (-1);    ivec3 0 0 (-1);    ivec3 1 0 (-1);
    ivec3 (-1) 1 (-1);    ivec3 0 1 (-1);    ivec3 1 1 (-1);
    ivec3 (-1) (-1) 0;    ivec3 0 (-1) 0;    ivec3 1 (-1) 0;
    ivec3 (-1) 0 0;                          ivec3 1 0 0;
    ivec3 (-1) 1 0;       ivec3 0 1 0;       ivec3 1 1 0;
    ivec3 (-1) (-1) 1;    ivec3 0 (-1) 1;    ivec3 1 (-1) 1;
    ivec3 (-1) 0 1;       ivec3 0 0 1;       ivec3 1 0 1;
    ivec3 (-1) 1 1;       ivec3 0 1 1;       ivec3 1 1 1 ].

Definition get_neighbour_iter (m : NeighbourMethod) : list IVec3 :=
  match m with
  | Moore => MOOSE_NEIGHBOURS
  | VonNeuman => VONNEUMAN_NEIGHBOURS
  end.

(** ** rule.rs *)

(** [Value([bool; 27])]: the array type fixes the length. *)
Record Value := { bits : list bool; bits_len : length bits = 27%nat }.

(** [Value::in_range]: [self.0[value as usize]], which panics out of range. *)
Definition in_range (r : Value) (value : Z) : option bool :=
  nth_error (bits r) (Z.to_nat value).

(** [Value::in_range_incorrect]: [*self.0.get(value as usize).unwrap_or(&false)]. *)
Definition in_range_incorrect (r : Value) (value : Z) : bool :=
  match nth_error (bits r) (Z.to_nat value) with
  | Some b => b
  | None => false
  end.

(** The bitset of [Value::new] for indices in [0..=26]. *)
Definition bits_of (indices : list nat) : list bool :=
  map (fun i => existsb (Nat.eqb i) indices) (seq 0 27).

Lemma bits_of_len (indices : list nat) : length (bits_of indices) = 27%nat.
Proof. unfold bits_of; rewrite length_map, length_seq; reflexivity. Qed.

Definition value_new (indices : list nat) : Value :=
  {| bits := bits_of indices; bits_len := bits_of_len indices |}.

(** [Rule]; the [color_method] field only feeds rendering and is left out. *)
Record Rule := {
  survival_rule : Value;
  birth_rule : Value;
  states : Z;
  neighbour_method : NeighbourMethod;
  bounding_size : Z
}.

(** ** Indexing and wrapping *)

(** [LeddooSingleThreaded::index_to_vec] (with [size] the side length). *)
Definition index_to_vec (size index : Z) : IVec3 :=
  ivec3 (index mod size) (index / size mod size) (index / size / size).

(** [LeddooSingleThreaded::vec_to_index]. *)
Definition vec_to_index (size : Z) (v : IVec3) : Z :=
  px v + py v * size + pz v * size * size.

(** Modelled from the spec: [utils::index_to_pos], called by the atomic and
    chunked engines but missing from the snapshot's utils.rs.  Spec 4.1: the
    inverse of [pos_to_index] over [0 <= i < bound^3] in the layout
    [x + y*bound + z*bound^2]. *)
Definition index_to_pos (index bounds : Z) : IVec3 :=
  ivec3 (index mod bounds) (index / bounds mod bounds) (index / bounds / bounds).

(** Modelled from the spec: [utils::pos_to_index] (missing from the snapshot),
    the layout [x + y*bound + z*bound^2] of spec 4.1. *)
Definition pos_to_index (pos : IVec3) (bounds : Z) : Z :=
  px pos + py pos * bounds + pz pos * bounds * bounds.

(** Modelled from the spec: [utils::wrap] (missing from the snapshot).  Spec
    4.1: maps each coordinate into [0, bound) by true modulo (never
    negative), i.e. [rem_euclid]. *)
Definition wrap (pos : IVec3) (bounds : Z) : IVec3 :=
  ivec3 (px pos mod bounds) (py pos mod bounds) (pz pos mod bounds).

(** [utils::keep_in_bounds], the wrap-like function present in utils.rs. *)
Definition keep_in_bounds (bounds : Z) (pos : IVec3) : IVec3 :=
  let fix1 c := if c <=? - bounds then bounds - 1
                else if bounds <=? c then - bounds + 1 else c in
  ivec3 (fix1 (px pos)) (fix1 (py pos)) (fix1 (pz pos)).

(** ** Shared pieces of the engines *)

(** [cell_is_dead] / [Cell::is_dead]. *)
Definition cell_is_dead (value : Z) : bool := value =? 0.

(** What the value-update loop records for one cell: pushed to [spawns]
    ([Born]), pushed to [deaths] ([Dying]), decremented without a push
    ([Decay]), or left alone ([Stay]). *)
Inductive Change := Stay | Born | Dying | Decay.

Definition change_eqb (a b : Change) : bool :=
  match a, b with
  | Stay, Stay | Born, Born | Dying, Dying | Decay, Decay => true
  | _, _ => false
  end.

(** The body of the value-update loop, written identically in
    [LeddooSingleThreaded::update], [LeddooAtomic::update_values] and
    [LeddooMultiThreaded::update_values_chunk]:
<<
    if cell_is_dead(value) {
        if rule.birth_rule.in_range(neighbors) { value = rule.states; spawns.push }
    } else if value < rule.states || !rule.survival_rule.in_range(neighbors) {
        if value == rule.states { deaths.push }
        value -= 1;
    }
>>
    The [||] short-circuits: [in_range] is not evaluated when [value < states]. *)
Definition update_value (rule : Rule) (value neighbors : Z) : option (Z * Change) :=
  if cell_is_dead value then
    match in_range (birth_rule rule) neighbors with
    | None => None
    | Some true => Some (states rule, Born)
    | Some false => Some (value, Stay)
    end
  else
    let decays := if value <? states rule then Some true
                  else option_map negb (in_range (survival_rule rule) neighbors) in
    match decays with
    | None => None
    | Some true =>
        Some (u8 (value - 1), if value =? states rule then Dying else Decay)
    | Some false => Some (value, Stay)
    end.

(** [*neighbors += 1] / [*neighbors -= 1] and [fetch_add(1)] / [fetch_sub(1)]. *)
Definition bump (inc : bool) (c : Z) : Z := u8 (if inc then c + 1 else c - 1).

(** Writing one slot of an array. *)
Definition upd {A : Type} (f : Z -> A) (i : Z) (a : A) : Z -> A :=
  fun j => if j =? i then a else f j.

(** The value loops write a cell only when it is born or decremented. *)
Definition write_value {A : Type} (ch : Change) (f : Z -> A) (i : Z) (a : A) : Z -> A :=
  match ch with
  | Stay => f
  | _ => upd f i a
  end.

(** [v.iter().filter(..).count()] over an index range. *)
Definition count_where (p : Z -> bool) (l : list Z) : Z :=
  Z.of_nat (length (filter p l)).

(** The brute-force neighbour count of the [validate] routines: the number of
    directions [dir] for which the value at [wrap(pos + dir)] equals
    [rule.states]. *)
Definition brute_count (rule : Rule) (value_at : IVec3 -> Z) (bounds : Z)
    (pos : IVec3) : Z :=
  Z.of_nat (length (filter
    (fun dir => value_at (wrap (vadd pos dir) bounds) =? states rule)
    (get_neighbour_iter (neighbour_method rule)))).

Definition CHUNK_SIZE : Z := 32.
Definition CHUNK_CELL_COUNT : Z := CHUNK_SIZE * CHUNK_SIZE * CHUNK_SIZE.

(** [chunk_is_border_pos] (atomic.rs) and [Chunk::is_border_pos] (mod.rs). *)
Definition chunk_is_border_pos (pos : IVec3) (offset : Z) : bool :=
  (px pos - offset <=? 0) || (CHUNK_SIZE - 1 <=? px pos + offset) ||
  (py pos - offset <=? 0) || (CHUNK_SIZE - 1 <=? py pos + offset) ||
  (pz pos - offset <=? 0) || (CHUNK_SIZE - 1 <=? pz pos + offset).

(** [chunk_offset_to_pos] / [Chunk::index_to_pos]. *)
Definition chunk_offset_to_pos (offset : Z) : IVec3 := index_to_pos offset CHUNK_SIZE.

(** [bounds_to_chunk_radius]: [(bounds as usize + CHUNK_SIZE - 1) / CHUNK_SIZE],
    for the non-negative bounds the program passes. *)
Definition bounds_to_chunk_radius (bounds : Z) : Z :=
  (bounds + CHUNK_SIZE - 1) / CHUNK_SIZE.

(** Modelled from the spec: [utils::make_some_noise_default(center, f)],
    missing from the snapshot.  Spec 4.3: it visits a pseudo-random cluster of
    up to [12^3] positions within a cube of half-width 6 around [center].  The
    random offsets are the input [offsets]; [f] is run at [center + offset]
    for each of them, in order, threading the engine state. *)
Definition make_some_noise_default {S : Type} (center : IVec3)
    (offsets : list IVec3) (f : S -> IVec3 -> S) (s : S) : S :=
  fold_left (fun s o => f s (vadd center o)) offsets s.

(** The generator's range: at most [12^3] offsets, each coordinate in [-6, 6]. *)
Definition noise_offsets_ok (offsets : list IVec3) : bool :=
  (Z.of_nat (length offsets) <=? 12 * 12 * 12) &&
  forallb (fun o => (-6 <=? px o) && (px o <=? 6) && (-6 <=? py o) &&
                    (py o <=? 6) && (-6 <=? pz o) && (pz o <=? 6)) offsets.

(** ** cells/leddoo/atomic.rs *)

Module Atomic.

(** [LeddooAtomic]; [values] and [neighbors] are the two shared [Values]
    arrays, of length [bounds^3] ([Values::new]). *)
Record LeddooAtomic := {
  values : Z -> Z;
  neighbors : Z -> Z;
  chunk_radius : Z;
  chunk_count : Z
}.

Definition new : LeddooAtomic :=
  {| values := fun _ => 0; neighbors := fun _ => 0;
     chunk_radius := 0; chunk_count := 0 |}.

(** [LeddooAtomic::set_bounds]: fresh zeroed arrays on every call; returns
    the new state and the effective bound. *)
Definition set_bounds (st : LeddooAtomic) (new_bounds : Z) : LeddooAtomic * Z :=
  let radius := bounds_to_chunk_radius new_bounds in
  let bounds := radius * CHUNK_SIZE in
  ({| values := fun _ => 0; neighbors := fun _ => 0;
      chunk_radius := radius; chunk_count := radius * radius * radius |},
   bounds).

Definition bounds (st : LeddooAtomic) : Z := chunk_radius st * CHUNK_SIZE.

Definition total_cell_count (st : LeddooAtomic) : Z := chunk_count st * CHUNK_CELL_COUNT.

Definition center (st : LeddooAtomic) : IVec3 :=
  let c := Z.quot (bounds st) 2 in ivec3 c c c.

Definition cell_count (st : LeddooAtomic) : Z :=
  count_where (fun index => negb (cell_is_dead (values st index)))
    (zrange 0 (total_cell_count st)).

(** [LeddooAtomic::update_neighbors]: atomic updates through the wrapped
    position for sources near a chunk face, plain writes through the
    unwrapped position otherwise. *)
Definition update_neighbors (neighbors : Z -> Z) (index bounds : Z) (rule : Rule)
    (inc : bool) : Z -> Z :=
  let pos := index_to_pos index bounds in
  let local := vrem pos CHUNK_SIZE in
  if chunk_is_border_pos local 1 then
    fold_left (fun nb dir =>
        let index := pos_to_index (wrap (vadd pos dir) bounds) bounds in
        upd nb index (bump inc (nb index)))
      (get_neighbour_iter (neighbour_method rule)) neighbors
  else
    fold_left (fun nb dir =>
        let index := pos_to_index (vadd pos dir) bounds in
        upd nb index (bump inc (nb index)))
      (get_neighbour_iter (neighbour_method rule)) neighbors.

(** [LeddooAtomic::update_values] for one chunk. *)
Definition update_values (values neighbors : Z -> Z)
    (chunk_index chunk_radius bounds : Z) (rule : Rule) (spawns deaths : list Z)
    : option ((Z -> Z) * list Z * list Z) :=
  let chunk_pos := vscale CHUNK_SIZE (index_to_pos chunk_index chunk_radius) in
  fold_opt (fun '(values, spawns, deaths) offset =>
      let pos := vadd chunk_pos (chunk_offset_to_pos offset) in
      let index := pos_to_index pos bounds in
      match update_value rule (values index) (neighbors index) with
      | None => None
      | Some (v, ch) =>
          Some (write_value ch values index v,
                if change_eqb ch Born then spawns ++ [index] else spawns,
                if change_eqb ch Dying then deaths ++ [index] else deaths)
      end)
    (zrange 0 CHUNK_CELL_COUNT) (values, spawns, deaths).

(** One value task of [LeddooAtomic::update]: chunk [chunk_index], its
    [(spawns, deaths)] collected after the previous chunks'. *)
Definition value_step (st : LeddooAtomic) (rule : Rule)
    (acc : (Z -> Z) * list (list Z * list Z)) (chunk_index : Z)
    : option ((Z -> Z) * list (list Z * list Z)) :=
  let '(values, lists) := acc in
  match update_values values (neighbors st) chunk_index (chunk_radius st)
          (bounds st) rule [] [] with
  | None => None
  | Some (values', spawns, deaths) => Some (values', lists ++ [(spawns, deaths)])
  end.

(** The value tasks of [LeddooAtomic::update], one per chunk. *)
Definition value_phase (st : LeddooAtomic) (rule : Rule)
    : option ((Z -> Z) * list (list Z * list Z)) :=
  fold_opt (value_step st rule) (zrange 0 (chunk_count st)) (values st, []).

(** One neighbour task of [LeddooAtomic::update]. *)
Definition neighbor_task (bounds : Z) (rule : Rule) (neighbors : Z -> Z)
    (sd : list Z * list Z) : Z -> Z :=
  let nb := fold_left (fun nb index => update_neighbors nb index bounds rule true)
              (fst sd) neighbors in
  fold_left (fun nb index => update_neighbors nb index bounds rule false) (snd sd) nb.

(** [LeddooAtomic::update]. *)
Definition update (st : LeddooAtomic) (rule : Rule) : option LeddooAtomic :=
  match value_phase st rule with
  | None => None
  | Some (values', lists) =>
      Some {| values := values';
              neighbors := fold_left (neighbor_task (bounds st) rule) lists (neighbors st);
              chunk_radius := chunk_radius st;
              chunk_count := chunk_count st |}
  end.

(** [LeddooAtomic::validate]: [true] when every assertion passes. *)
Definition validate (st : LeddooAtomic) (rule : Rule) : bool :=
  forallb (fun index =>
      let pos := index_to_pos index (bounds st) in
      brute_count rule (fun p => values st (pos_to_index p (bounds st))) (bounds st) pos
        =? neighbors st index)
    (zrange 0 (total_cell_count st)).

(** The closure [spawn_noise] passes to [make_some_noise_default]. *)
Definition noise_visit (rule : Rule) (bounds : Z) (st : LeddooAtomic) (pos : IVec3)
    : LeddooAtomic :=
  let index := pos_to_index (wrap pos bounds) (Atomic.bounds st) in
  if cell_is_dead (values st index) then
    {| values := upd (values st) index (states rule);
       neighbors := update_neighbors (neighbors st) index (Atomic.bounds st) rule true;
       chunk_radius := chunk_radius st;
       chunk_count := chunk_count st |}
  else st.

(** [LeddooAtomic::spawn_noise], the generator's offsets as input. *)
Definition spawn_noise (st : LeddooAtomic) (rule : Rule) (offsets : list IVec3)
    : LeddooAtomic :=
  make_some_noise_default (center st) offsets (noise_visit rule (bounds st)) st.


End Atomic.

(** ** cells/leddoo/single_threaded.rs *)

Module Single.

Record Cell := mkCell { value : Z; neighbors : Z }.

Definition dead_cell : Cell := mkCell 0 0.

(** [LeddooSingleThreaded]; [cells] has length [size^3] ([set_size]). *)
Record LeddooSingleThreaded := { cells : Z -> Cell; size : Z }.

Definition new : LeddooSingleThreaded := {| cells := fun _ => dead_cell; size := 0 |}.

(** [LeddooSingleThreaded::set_size]. *)
Definition set_size (st : LeddooSingleThreaded) (new_size : Z) : LeddooSingleThreaded :=
  if new_size =? size st then st
  else {| cells := fun _ => dead_cell; size := new_size |}.

Definition cell_count (st : LeddooSingleThreaded) : Z :=
  count_where (fun index => negb (cell_is_dead (value (cells st index))))
    (zrange 0 (size st * size st * size st)).

(** [LeddooSingleThreaded::update_neighbors]. *)
Definition update_neighbors (st : LeddooSingleThreaded) (rule : Rule) (index : Z)
    (inc : bool) : LeddooSingleThreaded :=
  let pos := index_to_vec (size st) index in
  fold_left (fun st dir =>
      let neighbor_pos := wrap (vadd pos dir) (size st) in
      let index := vec_to_index (size st) neighbor_pos in
      let c := cells st index in
      {| cells := upd (cells st) index (mkCell (value c) (bump inc (neighbors c)));
         size := size st |})
    (get_neighbour_iter (neighbour_method rule)) st.

(** The value loop of [LeddooSingleThreaded::update]. *)
Definition value_phase (st : LeddooSingleThreaded) (rule : Rule)
    : option ((Z -> Cell) * list Z * list Z) :=
  fold_opt (fun '(cells, spawns, deaths) index =>
      let cell := cells index in
      match update_value rule (value cell) (neighbors cell) with
      | None => None
      | Some (v, ch) =>
          Some (write_value ch cells index (mkCell v (neighbors cell)),
                if change_eqb ch Born then spawns ++ [index] else spawns,
                if change_eqb ch Dying then deaths ++ [index] else deaths)
      end)
    (zrange 0 (size st * size st * size st)) (cells st, [], []).

(** [LeddooSingleThreaded::update]. *)
Definition update (st : LeddooSingleThreaded) (rule : Rule)
    : option LeddooSingleThreaded :=
  let st := set_size st (bounding_size rule) in
  match value_phase st rule with
  | None => None
  | Some (cells', spawns, deaths) =>
      let st1 := {| cells := cells'; size := size st |} in
      let st2 := fold_left (fun st index => update_neighbors st rule index true) spawns st1 in
      Some (fold_left (fun st index => update_neighbors st rule index false) deaths st2)
  end.

End Single.

(** ** cells/leddoo/mod.rs and cells/leddoo/multi_threaded.rs *)

Module Multi.

Record Cell := mkCell { value : Z; neighbours : Z }.

(** [Chunk<Cell>]: [CHUNK_CELL_COUNT] cells. *)
Definition Chunk : Type := Z -> Cell.

(** [Chunk::default]. *)
Definition chunk_default : Chunk := fun _ => mkCell 0 0.

(** [Chunks<Cell>]. [LeddooMultiThreaded] is a wrapper around one [Chunks]
    and its [set_bounds], [bounds] forward to it, so it is the state here. *)
Record Chunks := { chunks : list Chunk; chunk_radius : Z; chunk_count : Z }.

Definition new : Chunks := {| chunks := []; chunk_radius := 0; chunk_count := 0 |}.

Definition bounds (c : Chunks) : Z := chunk_radius c * CHUNK_SIZE.

(** [Vec::resize_with]: truncates, or extends with fresh elements. *)
Definition resize_with {A : Type} (n : nat) (l : list A) (f : A) : list A :=
  firstn n l ++ repeat f (n - length l).

(** [Chunks::set_bounds]. *)
Definition set_bounds (c : Chunks) (new_bounds : Z) : Chunks * Z :=
  let radius := (new_bounds + CHUNK_SIZE - 1) / CHUNK_SIZE in
  let c' := if radius =? chunk_radius c then c
            else let count := radius * radius * radius in
                 {| chunks := resize_with (Z.to_nat count) (chunks c) chunk_default;
                    chunk_radius := radius; chunk_count := count |} in
  (c', bounds c').

(** [LeddooMultiThreaded::cell_count]. *)
Definition cell_count (c : Chunks) : Z :=
  fold_left (fun acc chunk =>
      acc + count_where (fun o => negb (cell_is_dead (value (chunk o))))
              (zrange 0 CHUNK_CELL_COUNT))
    (chunks c) 0.

Definition index_to_chunk_index (index : Z) : Z := index / CHUNK_CELL_COUNT.
Definition index_to_chunk_offset (index : Z) : Z := index mod CHUNK_CELL_COUNT.

(** [Chunk::pos_to_index]. *)
Definition chunk_pos_to_index (pos : IVec3) : Z := pos_to_index pos CHUNK_SIZE.

(** [Chunks::index_to_pos_ex]. *)
Definition index_to_pos_ex (index chunk_radius : Z) : IVec3 :=
  vadd (vscale CHUNK_SIZE (index_to_pos (index_to_chunk_index index) chunk_radius))
       (chunk_offset_to_pos (index_to_chunk_offset index)).

(** [Chunks::pos_to_index_ex]. *)
Definition pos_to_index_ex (v : IVec3) (chunk_radius : Z) : Z :=
  let chunk_vec := vquot v CHUNK_SIZE in
  let offset_vec := vrem v CHUNK_SIZE in
  pos_to_index chunk_vec chunk_radius * CHUNK_CELL_COUNT + chunk_pos_to_index offset_vec.

(** [v[n] = f(v[n])] on a [Vec] (the index is always in range here). *)
Fixpoint modify_nth {A : Type} (n : nat) (f : A -> A) (l : list A) : list A :=
  match l, n with
  | [], _ => []
  | a :: l', O => f a :: l'
  | a :: l', S n' => a :: modify_nth n' f l'
  end.

Definition bump_cell (inc : bool) (c : Cell) : Cell :=
  mkCell (value c) (bump inc (neighbours c)).

(** [LeddooMultiThreaded::update_neighbors_chunk]: no wrapping, inside one chunk. *)
Definition update_neighbors_chunk (chunk : Chunk) (rule : Rule) (offset : Z)
    (inc : bool) : Chunk :=
  let pos := chunk_offset_to_pos offset in
  fold_left (fun ch dir =>
      let index := chunk_pos_to_index (vadd pos dir) in
      upd ch index (bump_cell inc (ch index)))
    (get_neighbour_iter (neighbour_method rule)) chunk.

(** [LeddooMultiThreaded::update_neighbors] ([self] only supplies the radius). *)
Definition update_neighbors (self : Chunks) (chs : list Chunk) (rule : Rule)
    (index : Z) (inc : bool) : list Chunk :=
  let pos := index_to_pos_ex index (chunk_radius self) in
  fold_left (fun chs dir =>
      let neighbor_pos := wrap (vadd pos dir) (bounds self) in
      let index := pos_to_index_ex neighbor_pos (chunk_radius self) in
      let chunk := index_to_chunk_index index in
      let offset := index_to_chunk_offset index in
      modify_nth (Z.to_nat chunk) (fun ch => upd ch offset (bump_cell inc (ch offset))) chs)
    (get_neighbour_iter (neighbour_method rule)) chs.

(** [LeddooMultiThreaded::update_values_chunk]; returns
    [(chunk, chunk_spawns, spawns, chunk_deaths, deaths)]. *)
Definition update_values_chunk (chunk : Chunk) (chunk_index : Z) (rule : Rule)
    : option (Chunk * list Z * list Z * list Z * list Z) :=
  fold_opt (fun '(ch, cs, sp, cd, dt) offset =>
      let cell := ch offset in
      match update_value rule (value cell) (neighbours cell) with
      | None => None
      | Some (v, chg) =>
          let border := chunk_is_border_pos (chunk_offset_to_pos offset) 0 in
          let g := chunk_index * CHUNK_CELL_COUNT + offset in
          Some (write_value chg ch offset (mkCell v (neighbours cell)),
                if change_eqb chg Born && negb border then cs ++ [offset] else cs,
                if change_eqb chg Born && border then sp ++ [g] else sp,
                if change_eqb chg Dying && negb border then cd ++ [offset] else cd,
                if change_eqb chg Dying && border then dt ++ [g] else dt)
      end)
    (zrange 0 CHUNK_CELL_COUNT) (chunk, [], [], [], []).

(** The value tasks, one per chunk with its [enumerate] index. *)
Fixpoint value_tasks (rule : Rule) (chunk_index : Z) (chs : list Chunk)
    : option (list (Chunk * list Z * list Z * list Z * list Z)) :=
  match chs with
  | [] => Some []
  | ch :: rest =>
      match update_values_chunk ch chunk_index rule, value_tasks rule (chunk_index + 1) rest with
      | Some r, Some rs => Some (r :: rs)
      | _, _ => None
      end
  end.

(** One parallel neighbour task: the chunk-local spawns, then deaths. *)
Definition chunk_task (rule : Rule) (r : Chunk * list Z * list Z * list Z * list Z)
    : Chunk :=
  let '(ch, cs, _, cd, _) := r in
  let ch := fold_left (fun ch o => update_neighbors_chunk ch rule o true) cs ch in
  fold_left (fun ch o => update_neighbors_chunk ch rule o false) cd ch.

Definition border_spawns (r : Chunk * list Z * list Z * list Z * list Z) : list Z :=
  let '(_, _, sp, _, _) := r in sp.
Definition border_deaths (r : Chunk * list Z * list Z * list Z * list Z) : list Z :=
  let '(_, _, _, _, dt) := r in dt.

(** [LeddooMultiThreaded::update]. *)
Definition update (self : Chunks) (rule : Rule) : option Chunks :=
  match value_tasks rule 0 (chunks self) with
  | None => None
  | Some results =>
      let chs := map (chunk_task rule) results in
      let spawns := flat_map border_spawns results in
      let deaths := flat_map border_deaths results in
      let chs := fold_left (fun chs index => update_neighbors self chs rule index true)
                   spawns chs in
      let chs := fold_left (fun chs index => update_neighbors self chs rule index false)
                   deaths chs in
      Some {| chunks := chs; chunk_radius := chunk_radius self;
              chunk_count := chunk_count self |}
  end.

End Multi.

(** * Lemmas *)

(** ** Ranges, positions *)

Lemma vec_eqb_spec (a b : IVec3) : vec_eqb a b = true <-> a = b.
Proof.
  destruct a as [ax ay az], b as [bx by' bz]; unfold vec_eqb; simpl.
  rewrite !andb_true_iff, !Z.eqb_eq; split.
  - intros [[-> ->] ->]; reflexivity.
  - intros H; inversion H; auto.
Qed.

Lemma prange_In (lo : Z) (p : positive) (j : Z) :
  In j (prange lo p) <-> lo <= j < lo + Z.pos p.
Proof.
  revert lo; induction p as [q IH|q IH|]; intros lo; simpl prange.
  - rewrite Pos2Z.inj_xI; simpl In; rewrite in_app_iff, !IH; lia.
  - rewrite Pos2Z.inj_xO, in_app_iff, !IH; lia.
  - simpl; lia.
Qed.

Lemma zrange_In (lo hi j : Z) : In j (zrange lo hi) <-> lo <= j < hi.
Proof.
  unfold zrange; destruct (hi - lo) eqn:E; [simpl; lia | rewrite prange_In; lia | simpl; lia].
Qed.

Lemma prange_NoDup (lo : Z) (p : positive) : NoDup (prange lo p).
Proof.
  revert lo; induction p as [q IH|q IH|]; intros lo; simpl prange.
  - constructor.
    + rewrite in_app_iff, !prange_In; lia.
    + apply NoDup_app; auto; intros a; rewrite !prange_In; lia.
  - apply NoDup_app; auto; intros a; rewrite !prange_In; lia.
  - constructor; [intros []|constructor].
Qed.

Lemma zrange_NoDup (lo hi : Z) : NoDup (zrange lo hi).
Proof. unfold zrange; destruct (hi - lo); [constructor | apply prange_NoDup | constructor]. Qed.

Lemma prange_length (lo : Z) (p : positive) : length (prange lo p) = Pos.to_nat p.
Proof.
  revert lo; induction p as [q IH|q IH|]; intros lo; simpl prange.
  - rewrite Pos2Nat.inj_xI; simpl length; rewrite length_app, !IH; lia.
  - rewrite Pos2Nat.inj_xO, length_app, !IH; lia.
  - reflexivity.
Qed.

Lemma zrange_length (lo hi : Z) : length (zrange lo hi) = Z.to_nat (hi - lo).
Proof.
  unfold zrange; destruct (hi - lo); [reflexivity | apply prange_length | reflexivity].
Qed.

Lemma index_to_pos_box (i b : Z) :
  0 < b -> 0 <= i < b * b * b -> in_box b (index_to_pos i b).
Proof.
  intros Hb Hi; unfold in_box, index_to_pos; simpl.
  split; [apply Z.mod_pos_bound; lia|].
  split; [apply Z.mod_pos_bound; lia|].
  split.
  - apply Z.div_pos; [apply Z.div_pos|]; lia.
  - apply Z.div_lt_upper_bound; [lia|].
    apply Z.div_lt_upper_bound; [lia|]. nia.
Qed.

Lemma pos_to_index_range (p : IVec3) (b : Z) :
  in_box b p -> 0 <= pos_to_index p b < b * b * b.
Proof. destruct p as [x y z]; unfold in_box, pos_to_index; simpl; nia. Qed.

Lemma pos_index_roundtrip (p : IVec3) (b : Z) :
  0 < b -> in_box b p -> index_to_pos (pos_to_index p b) b = p.
Proof.
  destruct p as [x y z]; unfold in_box, index_to_pos, pos_to_index; simpl.
  intros Hb (Hx & Hy & Hz).
  replace (x + y * b + z * b * b) with (x + (y + z * b) * b) by ring.
  rewrite Z_mod_plus_full, Z.div_add by lia.
  rewrite (Z.div_small x b), (Z.mod_small x b) by lia.
  rewrite Z.add_0_l, Z_mod_plus_full, Z.div_add by lia.
  rewrite (Z.div_small y b), (Z.mod_small y b) by lia.
  reflexivity.
Qed.

Lemma index_pos_roundtrip (i b : Z) :
  0 < b -> pos_to_index (index_to_pos i b) b = i.
Proof.
  intros Hb; unfold index_to_pos, pos_to_index; simpl.
  pose proof (Z_div_mod_eq_full i b) as E1.
  pose proof (Z_div_mod_eq_full (i / b) b) as E2.
  remember (i / b) as q; remember (i mod b) as r.
  remember (q / b) as q2; remember (q mod b) as r2.
  rewrite E1; rewrite E2 at 1; ring.
Qed.

Lemma pos_to_index_inj (p q : IVec3) (b : Z) :
  0 < b -> in_box b p -> in_box b q -> pos_to_index p b = pos_to_index q b -> p = q.
Proof.
  intros Hb Hp Hq E.
  rewrite <- (pos_index_roundtrip p b), <- (pos_index_roundtrip q b), E by auto.
  reflexivity.
Qed.

Lemma wrap_box (p : IVec3) (b : Z) : 0 < b -> in_box b (wrap p b).
Proof.
  intros Hb; unfold in_box, wrap; simpl.
  repeat split; apply Z.mod_pos_bound; lia.
Qed.

Lemma wrap_id (p : IVec3) (b : Z) : in_box b p -> wrap p b = p.
Proof.
  destruct p as [x y z]; unfold in_box, wrap; simpl; intros (Hx & Hy & Hz).
  rewrite !Z.mod_small by lia; reflexivity.
Qed.



(** ** Chunk geometry *)

Lemma dirs_unit (m : NeighbourMethod) (d : IVec3) :
  In d (get_neighbour_iter m) ->
  -1 <= px d <= 1 /\ -1 <= py d <= 1 /\ -1 <= pz d <= 1.
Proof.
  destruct m; simpl; intros H;
    repeat (destruct H as [<- | H]; [simpl; lia |]); contradiction.
Qed.

Lemma border_false_local (p : IVec3) :
  chunk_is_border_pos p 1 = false ->
  2 <= px p <= 29 /\ 2 <= py p <= 29 /\ 2 <= pz p <= 29.
Proof.
  unfold chunk_is_border_pos, CHUNK_SIZE.
  rewrite !orb_false_iff, !Z.leb_gt; lia.
Qed.

(** One coordinate of an interior source: a step of at most 1 stays in the
    grid and in the chunk. *)
Lemma interior_coord (k x e : Z) :
  1 <= k -> 0 <= x < k * 32 -> 2 <= Z.rem x 32 <= 29 -> -1 <= e <= 1 ->
  0 <= x + e < k * 32 /\ Z.quot (x + e) 32 = Z.quot x 32 /\
  (x + e) mod (k * 32) = x + e.
Proof.
  intros Hk Hx Hr He.
  rewrite Z.rem_mod_nonneg in Hr by lia.
  pose proof (Z_div_mod_eq_full x 32) as E.
  assert (Hq : 0 <= x / 32 < k).
  { split; [apply Z.div_pos; lia | apply Z.div_lt_upper_bound; lia]. }
  assert (Hb : 0 <= x + e < k * 32) by lia.
  rewrite !Z.quot_div_nonneg by lia.
  split; [exact Hb | split].
  - symmetry; apply Z.div_unique with (r := x mod 32 + e); lia.
  - apply Z.mod_small; exact Hb.
Qed.

Lemma interior_step (k index : Z) (m : NeighbourMethod) (dir : IVec3) :
  1 <= k ->
  0 <= index < (k * CHUNK_SIZE) * (k * CHUNK_SIZE) * (k * CHUNK_SIZE) ->
  chunk_is_border_pos (vrem (index_to_pos index (k * CHUNK_SIZE)) CHUNK_SIZE) 1 = false ->
  In dir (get_neighbour_iter m) ->
  let pos := index_to_pos index (k * CHUNK_SIZE) in
  in_box (k * CHUNK_SIZE) (vadd pos dir) /\
  vquot (vadd pos dir) CHUNK_SIZE = vquot pos CHUNK_SIZE /\
  wrap (vadd pos dir) (k * CHUNK_SIZE) = vadd pos dir.
Proof.
  intros Hk Hi Hb Hd pos.
  assert (Hbox : in_box (k * CHUNK_SIZE) pos)
    by (apply index_to_pos_box; unfold CHUNK_SIZE in *; lia).
  apply border_false_local in Hb.
  apply dirs_unit in Hd.
  unfold in_box, CHUNK_SIZE in *; fold pos in Hb.
  destruct pos as [x y z], dir as [dx dy dz]; simpl in *.
  destruct (interior_coord k x dx) as (Ax & Bx & Cx); try lia.
  destruct (interior_coord k y dy) as (Ay & By & Cy); try lia.
  destruct (interior_coord k z dz) as (Az & Bz & Cz); try lia.
  unfold vquot, wrap; simpl.
  rewrite Bx, By, Bz, Cx, Cy, Cz; auto.
Qed.

(** ** Lists *)

Lemma forallb_ext_on {A : Type} (f g : A -> bool) (l : list A) :
  (forall x, In x l -> f x = g x) -> forallb f l = forallb g l.
Proof.
  induction l as [|a l IH]; simpl; intros H; [reflexivity|].
  rewrite H by auto; rewrite IH by auto; reflexivity.
Qed.

Lemma fold_left_ext_on {A B : Type} (f g : B -> A -> B) (l : list A) (b : B) :
  (forall x b', In x l -> f b' x = g b' x) -> fold_left f l b = fold_left g l b.
Proof.
  revert b; induction l as [|a l IH]; simpl; intros b H; [reflexivity|].
  rewrite H by auto; apply IH; auto.
Qed.

Lemma fold_left_map_fun {A B C : Type} (f : C -> B -> C) (g : A -> B) (l : list A) (c : C) :
  fold_left f (map g l) c = fold_left (fun c a => f c (g a)) l c.
Proof. revert c; induction l; simpl; auto. Qed.

Lemma fold_left_flat_map {A B C : Type} (f : C -> B -> C) (g : A -> list B) (l : list A) (c : C) :
  fold_left f (flat_map g l) c = fold_left (fun c a => fold_left f (g a) c) l c.
Proof.
  revert c; induction l as [|a l IH]; simpl; intros c; [reflexivity|].
  rewrite fold_left_app; apply IH.
Qed.

Lemma flat_map_ext_on {A B : Type} (f g : A -> list B) (l : list A) :
  (forall x, In x l -> f x = g x) -> flat_map f l = flat_map g l.
Proof.
  induction l as [|a l IH]; simpl; intros H; [reflexivity|].
  rewrite H by auto; rewrite IH by auto; reflexivity.
Qed.

Lemma flat_map_flat_map {A B C : Type} (f : B -> list C) (g : A -> list B) (l : list A) :
  flat_map f (flat_map g l) = flat_map (fun a => flat_map f (g a)) l.
Proof.
  induction l as [|a l IH]; simpl; [reflexivity|].
  rewrite flat_map_app, IH; reflexivity.
Qed.

Lemma flat_map_app_perm {A B : Type} (f g : A -> list B) (l : list A) :
  Permutation (flat_map f l ++ flat_map g l) (flat_map (fun x => f x ++ g x) l).
Proof.
  induction l as [|a l IH]; simpl; [reflexivity|].
  rewrite <- !app_assoc; apply Permutation_app_head.
  rewrite Permutation_app_swap_app; apply Permutation_app_head; exact IH.
Qed.

Lemma map_filter_flat_map {A B : Type} (p : A -> bool) (h : A -> B) (l : list A) :
  map h (filter p l) = flat_map (fun x => if p x then [h x] else []) l.
Proof. induction l as [|a l IH]; simpl; [|destruct (p a)]; simpl; congruence. Qed.

Lemma NoDup_flat_map {A B : Type} (f : A -> list B) (l : list A) :
  NoDup l ->
  (forall a, In a l -> NoDup (f a)) ->
  (forall a a' x, In a l -> In a' l -> a <> a' -> In x (f a) -> ~ In x (f a')) ->
  NoDup (flat_map f l).
Proof.
  induction l as [|a l IH]; simpl; intros Hl Hf Hd; [constructor|].
  inversion Hl as [|? ? Ha Hl']; subst.
  apply NoDup_app.
  - apply Hf; auto.
  - apply IH; auto.
    intros b b' x Hb Hb' Hne; apply Hd; auto.
  - intros x Hx Hx'; apply in_flat_map in Hx' as (a' & Ha' & Hx').
    apply (Hd a a' x); auto.
    intros ->; contradiction.
Qed.

(** [existsb (Z.eqb j) l]: membership as a [bool]. *)
Definition mem (j : Z) (l : list Z) : bool := existsb (Z.eqb j) l.

Lemma mem_In (j : Z) (l : list Z) : mem j l = true <-> In j l.
Proof.
  unfold mem; rewrite existsb_exists; split.
  - intros (x & Hx & E); apply Z.eqb_eq in E; subst; exact Hx.
  - intros H; exists j; split; [exact H | apply Z.eqb_refl].
Qed.

Lemma mem_app (j : Z) (l1 l2 : list Z) : mem j (l1 ++ l2) = mem j l1 || mem j l2.
Proof. unfold mem; apply existsb_app. Qed.

(** ** Sums *)

Definition sumZ (l : list Z) : Z := fold_right Z.add 0 l.

Lemma sumZ_app (l1 l2 : list Z) : sumZ (l1 ++ l2) = sumZ l1 + sumZ l2.
Proof. induction l1; simpl; [reflexivity|]; unfold sumZ in *; simpl; lia. Qed.

Lemma sumZ_perm (l1 l2 : list Z) : Permutation l1 l2 -> sumZ l1 = sumZ l2.
Proof. induction 1; unfold sumZ in *; simpl; lia. Qed.

Lemma sumZ_flat_map {A : Type} (f : A -> list Z) (l : list A) :
  sumZ (flat_map f l) = sumZ (map (fun a => sumZ (f a)) l).
Proof. induction l; simpl; [reflexivity|]; rewrite sumZ_app, IHl; reflexivity. Qed.

Lemma sumZ_map_ext_on {A : Type} (f g : A -> Z) (l : list A) :
  (forall x, In x l -> f x = g x) -> sumZ (map f l) = sumZ (map g l).
Proof. intros H; f_equal; apply map_ext_in; exact H. Qed.

Lemma sumZ_map_add {A : Type} (f g : A -> Z) (l : list A) :
  sumZ (map (fun x => f x + g x) l) = sumZ (map f l) + sumZ (map g l).
Proof. induction l; simpl; [reflexivity|]; unfold sumZ in *; simpl; lia. Qed.

Lemma sumZ_map_scale {A : Type} (c : Z) (f : A -> Z) (l : list A) :
  sumZ (map (fun x => c * f x) l) = c * sumZ (map f l).
Proof. induction l; simpl; [lia|]; unfold sumZ in *; simpl; lia. Qed.

(** Exchanging two sums. *)
Lemma sumZ_swap {A B : Type} (f : A -> B -> Z) (la : list A) (lb : list B) :
  sumZ (map (fun a => sumZ (map (fun b => f a b) lb)) la) =
  sumZ (map (fun b => sumZ (map (fun a => f a b) la)) lb).
Proof.
  induction la as [|a la IH]; simpl.
  - induction lb; simpl; [reflexivity|]; unfold sumZ in *; simpl; lia.
  - unfold sumZ at 1; simpl; fold (sumZ (map (fun a0 => sumZ (map (fun b => f a0 b) lb)) la)).
    rewrite IH.
    rewrite <- sumZ_map_add; reflexivity.
Qed.

(** A sum picking out one element of a duplicate-free list. *)
Lemma sumZ_pick (f : Z -> Z) (l : list Z) (j : Z) :
  NoDup l -> In j l -> sumZ (map (fun i => if i =? j then f i else 0) l) = f j.
Proof.
  induction l as [|a l IH]; simpl; intros Hl Hj; [contradiction|].
  inversion Hl as [|? ? Ha Hl']; subst.
  unfold sumZ; simpl; fold (sumZ (map (fun i => if i =? j then f i else 0) l)).
  destruct (Z.eqb_spec a j) as [->|Hne].
  - rewrite (sumZ_map_ext_on _ (fun _ => 0)).
    + assert (sumZ (map (fun _ : Z => 0) l) = 0) as ->.
      { clear; induction l; simpl; [reflexivity|]; unfold sumZ in *; simpl; lia. }
      lia.
    + intros x Hx; destruct (Z.eqb_spec x j); [subst; contradiction | reflexivity].
  - destruct Hj as [->|Hj]; [congruence|]; rewrite IH; auto.
Qed.

Lemma length_filter_sumZ {A : Type} (p : A -> bool) (l : list A) :
  Z.of_nat (length (filter p l)) = sumZ (map (fun x => if p x then 1 else 0) l).
Proof.
  induction l as [|a l IH]; simpl; [reflexivity|].
  unfold sumZ in *; simpl; destruct (p a); simpl length;
    [rewrite Nat2Z.inj_succ|]; lia.
Qed.

(** ** Neighbour patches as a list of signed updates *)

Definition sgn (inc : bool) : Z := if inc then 1 else -1.

(** A sequence of [u8] counter updates [(target, delta)], applied in order. *)
Definition apply_ops (nb : Z -> Z) (ops : list (Z * Z)) : Z -> Z :=
  fold_left (fun nb '(t, d) => upd nb t (u8 (nb t + d))) ops nb.

(** The total delta the updates [ops] bring to slot [j]. *)
Definition sum_at (j : Z) (ops : list (Z * Z)) : Z :=
  sumZ (map (fun '(t, d) => if t =? j then d else 0) ops).

(** The wrapped flat index of the neighbour of cell [s] in direction [d]. *)
Definition nbidx (b s : Z) (d : IVec3) : Z :=
  pos_to_index (wrap (vadd (index_to_pos s b) d) b) b.

(** The updates of patching the sources [(s, +1)] (spawns) and [(s, -1)]
    (deaths) in the directions [dirs]. *)
Definition signed_ops (b : Z) (dirs : list IVec3) (srcs : list (Z * Z)) : list (Z * Z) :=
  flat_map (fun '(s, sg) => map (fun d => (nbidx b s d, sg)) dirs) srcs.

Lemma bump_sgn (inc : bool) (c : Z) : bump inc c = u8 (c + sgn inc).
Proof. destruct inc; reflexivity. Qed.

Lemma u8_range (v : Z) : 0 <= u8 v < 256.
Proof. unfold u8; apply Z.mod_pos_bound; lia. Qed.

Lemma u8_small (v : Z) : 0 <= v < 256 -> u8 v = v.
Proof. unfold u8; apply Z.mod_small. Qed.

Lemma u8_add_l (a c : Z) : u8 (u8 a + c) = u8 (a + c).
Proof. unfold u8; apply Zplus_mod_idemp_l. Qed.

Lemma apply_ops_app (nb : Z -> Z) (l1 l2 : list (Z * Z)) :
  apply_ops nb (l1 ++ l2) = apply_ops (apply_ops nb l1) l2.
Proof. unfold apply_ops; apply fold_left_app. Qed.

Lemma apply_ops_cons (nb : Z -> Z) (t d : Z) (l : list (Z * Z)) :
  apply_ops nb ((t, d) :: l) = apply_ops (upd nb t (u8 (nb t + d))) l.
Proof. reflexivity. Qed.

(** The neighbour tasks of one phase commute: the final counters do not
    depend on the order of the updates, so running the tasks in spawn order
    gives the result of every interleaving of the atomic updates. *)
Lemma phaseB_perm (nb : Z -> Z) (ops ops' : list (Z * Z)) :
  Permutation ops ops' -> apply_ops nb ops = apply_ops nb ops'.
Proof.
  intros HP; revert nb; induction HP as [|[t d] l l' _ IH|[t1 d1] [t2 d2] l|l l' l'' _ IH1 _ IH2];
    intros nb.
  - reflexivity.
  - rewrite !apply_ops_cons; apply IH.
  - rewrite !apply_ops_cons; f_equal.
    extensionality j; unfold upd.
    repeat match goal with |- context [?a =? ?c] => destruct (Z.eqb_spec a c) end;
      subst; try congruence.
    rewrite !u8_add_l; f_equal; ring.
  - rewrite IH1; apply IH2.
Qed.

Lemma apply_ops_spec (nb : Z -> Z) (ops : list (Z * Z)) (j : Z) :
  0 <= nb j < 256 -> apply_ops nb ops j = u8 (nb j + sum_at j ops).
Proof.
  revert nb; induction ops as [|[t d] ops IH]; intros nb Hj.
  - unfold sum_at; simpl; rewrite Z.add_0_r, u8_small; auto.
  - rewrite apply_ops_cons, IH.
    + unfold sum_at, upd; simpl; fold (sum_at j ops).
      destruct (Z.eqb_spec j t) as [->|Hne].
      * rewrite Z.eqb_refl, u8_add_l; f_equal; lia.
      * rewrite (proj2 (Z.eqb_neq t j)) by congruence; f_equal.
    + unfold upd; destruct (j =? t); [apply u8_range | exact Hj].
Qed.

Lemma apply_ops_eq_on (f g : Z -> Z) (ops : list (Z * Z)) (n : Z) :
  (forall j, 0 <= j < n -> f j = g j) ->
  forall j, 0 <= j < n -> apply_ops f ops j = apply_ops g ops j.
Proof.
  revert f g; induction ops as [|[t d] ops IH]; intros f g H; [exact H|].
  rewrite !apply_ops_cons; apply IH.
  intros j Hj; unfold upd; destruct (Z.eqb_spec j t) as [->|]; rewrite ?H; auto.
Qed.

Lemma sum_at_app (j : Z) (l1 l2 : list (Z * Z)) :
  sum_at j (l1 ++ l2) = sum_at j l1 + sum_at j l2.
Proof. unfold sum_at; rewrite map_app, sumZ_app; reflexivity. Qed.

Lemma signed_ops_app (b : Z) (dirs : list IVec3) (l1 l2 : list (Z * Z)) :
  signed_ops b dirs (l1 ++ l2) = signed_ops b dirs l1 ++ signed_ops b dirs l2.
Proof. apply flat_map_app. Qed.

Lemma signed_ops_perm (b : Z) (dirs : list IVec3) (l1 l2 : list (Z * Z)) :
  Permutation l1 l2 -> Permutation (signed_ops b dirs l1) (signed_ops b dirs l2).
Proof. intros H; unfold signed_ops; rewrite H; reflexivity. Qed.

Lemma nbidx_range (b s : Z) (d : IVec3) : 0 < b -> 0 <= nbidx b s d < b * b * b.
Proof. intros Hb; apply pos_to_index_range, wrap_box, Hb. Qed.

(** [LeddooAtomic::update_neighbors] applies the wrapped patches of one
    source: the plain writes of an interior source land where the wrapped
    ones would. *)
Lemma atomic_update_neighbors_ops (k : Z) (nb : Z -> Z) (index : Z) (rule : Rule)
    (inc : bool) :
  1 <= k -> 0 <= index < (k * CHUNK_SIZE) * (k * CHUNK_SIZE) * (k * CHUNK_SIZE) ->
  Atomic.update_neighbors nb index (k * CHUNK_SIZE) rule inc =
  apply_ops nb (signed_ops (k * CHUNK_SIZE)
                  (get_neighbour_iter (neighbour_method rule)) [(index, sgn inc)]).
Proof.
  intros Hk Hi.
  unfold signed_ops; simpl flat_map; rewrite app_nil_r.
  unfold apply_ops; rewrite fold_left_map_fun.
  unfold Atomic.update_neighbors.
  destruct (chunk_is_border_pos _ 1) eqn:Hb;
    apply fold_left_ext_on; intros dir nb' Hd; rewrite bump_sgn.
  - reflexivity.
  - destruct (interior_step k index _ dir Hk Hi Hb Hd) as (_ & _ & W).
    unfold nbidx; rewrite W; reflexivity.
Qed.

(** ** The value loop *)

(** The outcome of [update_value], with a panic read as "no change". *)
Definition new_value (rule : Rule) (v c : Z) : Z :=
  match update_value rule v c with Some (v', _) => v' | None => v end.

Definition change_of (rule : Rule) (v c : Z) : Change :=
  match update_value rule v c with Some (_, ch) => ch | None => Stay end.

(** [update_value] does not panic. *)
Definition cell_ok (rule : Rule) (v c : Z) : bool :=
  match update_value rule v c with Some _ => true | None => false end.

Lemma update_value_stay (rule : Rule) (v c v' : Z) :
  update_value rule v c = Some (v', Stay) -> v' = v.
Proof.
  unfold update_value; destruct (cell_is_dead v).
  - destruct (in_range _ c) as [[|]|]; congruence.
  - destruct (if v <? states rule then _ else _) as [[|]|];
      [destruct (v =? states rule) | |]; congruence.
Qed.

(** A value loop whose body reads the cell at [a], runs [update_value] and
    records the result with [nxt]: when the cells are distinct and a write at
    one cell leaves the others alone, the loop panics exactly when some cell
    of the original state does, and otherwise records the outcomes computed
    from the original state. *)
Lemma fold_phaseA {T A : Type} (rule : Rule) (V C : T -> A -> Z)
    (nxt : T -> A -> Z -> Change -> T) (step : T -> A -> option T) (L : list A) :
  (forall t a, step t a = match update_value rule (V t a) (C t a) with
                          | Some (v, ch) => Some (nxt t a v ch)
                          | None => None
                          end) ->
  NoDup L ->
  (forall t a a' v ch, In a L -> In a' L -> a <> a' ->
     V (nxt t a v ch) a' = V t a' /\ C (nxt t a v ch) a' = C t a') ->
  forall t, fold_opt step L t =
    if forallb (fun a => cell_ok rule (V t a) (C t a)) L
    then Some (fold_left (fun t' a => nxt t' a (new_value rule (V t a) (C t a))
                                          (change_of rule (V t a) (C t a))) L t)
    else None.
Proof.
  intros Hstep; induction L as [|a L IH]; intros Hnd Hfr t; [reflexivity|].
  inversion Hnd as [|? ? Ha Hnd']; subst.
  simpl; rewrite Hstep.
  unfold cell_ok at 1.
  destruct (update_value rule (V t a) (C t a)) as [[v ch]|] eqn:E; [|reflexivity].
  assert (Hn : new_value rule (V t a) (C t a) = v) by (unfold new_value; rewrite E; reflexivity).
  assert (Hc : change_of rule (V t a) (C t a) = ch) by (unfold change_of; rewrite E; reflexivity).
  rewrite Hn, Hc.
  simpl; rewrite IH;
    [| exact Hnd'
     | intros t0 a0 a' v0 ch0 H1 H2 H3; apply Hfr; [right; exact H1 | right; exact H2 | exact H3]].
  - assert (Hsame : forall a', In a' L ->
               V (nxt t a v ch) a' = V t a' /\ C (nxt t a v ch) a' = C t a').
    { intros a' Ha'; apply Hfr; [left; reflexivity | right; exact Ha' |].
      intros ->; contradiction. }
    rewrite (forallb_ext_on _ (fun a0 => cell_ok rule (V t a0) (C t a0)) L).
    + destruct (forallb _ L); [|reflexivity].
      f_equal; apply fold_left_ext_on; intros x t' Hx.
      destruct (Hsame x Hx) as [-> ->]; reflexivity.
    + intros x Hx; destruct (Hsame x Hx) as [-> ->]; reflexivity.
Qed.

Lemma NoDup_map_on {A B : Type} (f : A -> B) (l : list A) :
  (forall x y, In x l -> In y l -> f x = f y -> x = y) -> NoDup l -> NoDup (map f l).
Proof.
  induction l as [|a l IH]; simpl; intros Hf Hl; constructor.
  - inversion Hl; subst; intros Hin; apply in_map_iff in Hin as (x & E & Hx).
    assert (x = a) by (apply Hf; auto); subst; contradiction.
  - inversion Hl; subst; apply IH; auto.
Qed.

Lemma NoDup_map_inj {A B : Type} (f : A -> B) (l : list A) (x y : A) :
  NoDup (map f l) -> In x l -> In y l -> f x = f y -> x = y.
Proof.
  induction l as [|a l IH]; simpl; intros Hnd Hx Hy E; [contradiction|].
  inversion Hnd as [|? ? Ha Hnd']; subst.
  destruct Hx as [<-|Hx], Hy as [<-|Hy]; auto.
  - exfalso; apply Ha; rewrite E; apply in_map; exact Hy.
  - exfalso; apply Ha; rewrite <- E; apply in_map; exact Hx.
Qed.

(** ** Chunk enumeration *)

(** The position of the cell at [offset] of chunk [chunk_index] in a grid of
    chunk radius [r], as [LeddooAtomic::update_values] computes it. *)
Definition chunk_cell_pos (r chunk_index offset : Z) : IVec3 :=
  vadd (vscale CHUNK_SIZE (index_to_pos chunk_index r)) (chunk_offset_to_pos offset).

Definition chunk_cell_index (r chunk_index offset : Z) : Z :=
  pos_to_index (chunk_cell_pos r chunk_index offset) (r * CHUNK_SIZE).

(** The flat indices of one chunk, in offset order. *)
Definition chunk_cells (r chunk_index : Z) : list Z :=
  map (chunk_cell_index r chunk_index) (zrange 0 CHUNK_CELL_COUNT).

(** All chunks' cells, chunk after chunk. *)
Definition all_chunk_cells (r : Z) : list Z :=
  flat_map (chunk_cells r) (zrange 0 (r * r * r)).

Lemma chunk_cell_pos_box (r c o : Z) :
  0 < r -> 0 <= c < r * r * r -> 0 <= o < CHUNK_CELL_COUNT ->
  in_box (r * CHUNK_SIZE) (chunk_cell_pos r c o).
Proof.
  intros Hr Hc Ho.
  pose proof (index_to_pos_box c r Hr Hc) as Hcp.
  assert (Hop : in_box CHUNK_SIZE (chunk_offset_to_pos o))
    by (apply index_to_pos_box; unfold CHUNK_CELL_COUNT, CHUNK_SIZE in *; lia).
  unfold chunk_cell_pos; destruct (index_to_pos c r) as [cx cy cz],
    (chunk_offset_to_pos o) as [ox oy oz].
  unfold in_box, CHUNK_SIZE in *; cbn [px py pz vadd vscale] in *; lia.
Qed.

Lemma chunk_cell_index_range (r c o : Z) :
  0 < r -> 0 <= c < r * r * r -> 0 <= o < CHUNK_CELL_COUNT ->
  0 <= chunk_cell_index r c o < (r * CHUNK_SIZE) * (r * CHUNK_SIZE) * (r * CHUNK_SIZE).
Proof. intros; apply pos_to_index_range, chunk_cell_pos_box; auto. Qed.

Lemma chunk_cell_pos_inj (r c o c' o' : Z) :
  0 < r -> 0 <= c < r * r * r -> 0 <= o < CHUNK_CELL_COUNT ->
  0 <= c' < r * r * r -> 0 <= o' < CHUNK_CELL_COUNT ->
  chunk_cell_pos r c o = chunk_cell_pos r c' o' -> c = c' /\ o = o'.
Proof.
  intros Hr Hc Ho Hc' Ho' E.
  assert (Hb : 0 < CHUNK_SIZE) by (unfold CHUNK_SIZE; lia).
  assert (Ho1 : 0 <= o < CHUNK_SIZE * CHUNK_SIZE * CHUNK_SIZE) by exact Ho.
  assert (Ho1' : 0 <= o' < CHUNK_SIZE * CHUNK_SIZE * CHUNK_SIZE) by exact Ho'.
  pose proof (index_to_pos_box o CHUNK_SIZE Hb Ho1) as Bo.
  pose proof (index_to_pos_box o' CHUNK_SIZE Hb Ho1') as Bo'.
  unfold chunk_cell_pos, chunk_offset_to_pos in E.
  rewrite <- (index_pos_roundtrip c r), <- (index_pos_roundtrip c' r) by exact Hr.
  rewrite <- (index_pos_roundtrip o CHUNK_SIZE), <- (index_pos_roundtrip o' CHUNK_SIZE) by exact Hb.
  destruct (index_to_pos c r) as [cx cy cz], (index_to_pos c' r) as [cx' cy' cz'],
    (index_to_pos o CHUNK_SIZE) as [ox oy oz], (index_to_pos o' CHUNK_SIZE) as [ox' oy' oz'].
  pose proof (f_equal px E) as Ex; pose proof (f_equal py E) as Ey;
    pose proof (f_equal pz E) as Ez; clear E.
  unfold in_box, CHUNK_SIZE in *; cbn [px py pz vadd vscale] in *.
  assert (cx = cx' /\ ox = ox') as [-> ->] by lia.
  assert (cy = cy' /\ oy = oy') as [-> ->] by lia.
  assert (cz = cz' /\ oz = oz') as [-> ->] by lia.
  split; reflexivity.
Qed.

Lemma chunk_cell_index_inj (r c o c' o' : Z) :
  0 < r -> 0 <= c < r * r * r -> 0 <= o < CHUNK_CELL_COUNT ->
  0 <= c' < r * r * r -> 0 <= o' < CHUNK_CELL_COUNT ->
  chunk_cell_index r c o = chunk_cell_index r c' o' -> c = c' /\ o = o'.
Proof.
  intros Hr Hc Ho Hc' Ho' E.
  apply (chunk_cell_pos_inj r); auto.
  apply (pos_to_index_inj _ _ (r * CHUNK_SIZE)); try apply chunk_cell_pos_box; auto.
  unfold CHUNK_SIZE; lia.
Qed.

Lemma chunk_cells_NoDup (r c : Z) :
  0 < r -> 0 <= c < r * r * r -> NoDup (chunk_cells r c).
Proof.
  intros Hr Hc; unfold chunk_cells.
  apply NoDup_map_on; [|apply zrange_NoDup].
  intros o o' Ho Ho' E; apply zrange_In in Ho, Ho'.
  apply (chunk_cell_index_inj r c o c o'); auto.
Qed.

Lemma offsets_In (o : Z) : In o (zrange 0 CHUNK_CELL_COUNT) -> 0 <= o < CHUNK_CELL_COUNT.
Proof. intros H; apply zrange_In in H; exact H. Qed.

Lemma chunk_cells_disjoint (r : Z) (L : list Z) :
  0 < r -> (forall o, In o L -> 0 <= o < CHUNK_CELL_COUNT) ->
  forall c c' x, 0 <= c < r * r * r -> 0 <= c' < r * r * r -> c <> c' ->
  In x (map (chunk_cell_index r c) L) -> ~ In x (map (chunk_cell_index r c') L).
Proof.
  intros Hr HL c c' x Hc Hc' Hne Hx Hx'.
  apply in_map_iff in Hx as (o & <- & Ho), Hx' as (o' & E & Ho').
  apply HL in Ho, Ho'.
  destruct (chunk_cell_index_inj r c' o' c o) as [E' _]; auto.
Qed.

Lemma all_chunk_cells_NoDup (r : Z) : 0 < r -> NoDup (all_chunk_cells r).
Proof.
  intros Hr; unfold all_chunk_cells; apply NoDup_flat_map.
  - apply zrange_NoDup.
  - intros c Hc; apply zrange_In in Hc; apply chunk_cells_NoDup; auto.
  - intros c c' x Hc Hc'; apply zrange_In in Hc, Hc'.
    apply chunk_cells_disjoint; auto; exact offsets_In.
Qed.

Lemma in_chunk_cells (r c j : Z) :
  In j (chunk_cells r c) -> exists o, 0 <= o < CHUNK_CELL_COUNT /\ j = chunk_cell_index r c o.
Proof.
  unfold chunk_cells; intros H; apply in_map_iff in H as (o & E & Ho).
  exists o; split; [apply offsets_In; exact Ho | symmetry; exact E].
Qed.

Lemma in_all_chunk_cells (r j : Z) :
  In j (all_chunk_cells r) -> exists c, 0 <= c < r * r * r /\ In j (chunk_cells r c).
Proof.
  unfold all_chunk_cells; intros H; apply in_flat_map in H as (c & Hc & H).
  exists c; split; [apply zrange_In; exact Hc | exact H].
Qed.

Lemma all_chunk_cells_In (r j : Z) :
  0 < r -> In j (all_chunk_cells r) ->
  0 <= j < (r * CHUNK_SIZE) * (r * CHUNK_SIZE) * (r * CHUNK_SIZE).
Proof.
  intros Hr Hj; apply in_all_chunk_cells in Hj as (c & Hc & Hj).
  apply in_chunk_cells in Hj as (o & Ho & ->).
  apply chunk_cell_index_range; auto.
Qed.

Lemma all_chunk_cells_perm (r : Z) :
  0 < r ->
  Permutation (all_chunk_cells r)
    (zrange 0 ((r * CHUNK_SIZE) * (r * CHUNK_SIZE) * (r * CHUNK_SIZE))).
Proof.
  intros Hr; apply NoDup_Permutation_bis.
  - apply all_chunk_cells_NoDup; exact Hr.
  - unfold all_chunk_cells; rewrite zrange_length.
    rewrite (flat_map_constant_length (c := Z.to_nat CHUNK_CELL_COUNT)).
    + rewrite zrange_length; unfold CHUNK_CELL_COUNT, CHUNK_SIZE.
      rewrite <- Z2Nat.inj_mul by nia; apply Nat.eq_le_incl; f_equal; ring.
    + intros c _; unfold chunk_cells; rewrite length_map, zrange_length; f_equal.
  - intros j Hj; apply zrange_In.
    pose proof (all_chunk_cells_In r j Hr Hj); lia.
Qed.

(** ** One step on flat arrays *)

(** The patch sources one cell contributes after its change. *)
Definition src_of (j : Z) (ch : Change) : list (Z * Z) :=
  match ch with
  | Born => [(j, 1)]
  | Dying => [(j, -1)]
  | _ => []
  end.

Definition is_born (rule : Rule) (V C : Z -> Z) (j : Z) : bool :=
  change_eqb (change_of rule (V j) (C j)) Born.

Definition is_dying (rule : Rule) (V C : Z -> Z) (j : Z) : bool :=
  change_eqb (change_of rule (V j) (C j)) Dying.

(** One update of a grid of side [b] seen as two flat arrays in the layout of
    [pos_to_index]: every cell runs [update_value] on the old arrays, then
    each born and each dying cell patches its wrapped neighbours. *)
Definition ref_step (rule : Rule) (b : Z) (V C : Z -> Z) : option ((Z -> Z) * (Z -> Z)) :=
  if forallb (fun j => cell_ok rule (V j) (C j)) (zrange 0 (b * b * b)) then
    Some (fun j => new_value rule (V j) (C j),
          apply_ops C (signed_ops b (get_neighbour_iter (neighbour_method rule))
                         (flat_map (fun j => src_of j (change_of rule (V j) (C j)))
                            (zrange 0 (b * b * b)))))
  else None.

Definition eq_on (n : Z) (f g : Z -> Z) : Prop := forall j, 0 <= j < n -> f j = g j.

Lemma forallb_perm {A : Type} (f : A -> bool) (l l' : list A) :
  Permutation l l' -> forallb f l = forallb f l'.
Proof.
  intros HP; apply eq_true_iff_eq; rewrite !forallb_forall; split; intros H x Hx;
    apply H; [apply (Permutation_in _ (Permutation_sym HP)) | apply (Permutation_in _ HP)]; exact Hx.
Qed.

Lemma forallb_flat_map {A B : Type} (f : B -> bool) (g : A -> list B) (l : list A) :
  forallb f (flat_map g l) = forallb (fun a => forallb f (g a)) l.
Proof. induction l as [|a l IH]; simpl; [reflexivity|]; rewrite forallb_app, IH; reflexivity. Qed.

Lemma forallb_map_fun {A B : Type} (f : B -> bool) (g : A -> B) (l : list A) :
  forallb f (map g l) = forallb (fun a => f (g a)) l.
Proof. induction l as [|a l IH]; simpl; [reflexivity|]; rewrite IH; reflexivity. Qed.

Lemma new_value_stay (rule : Rule) (v c : Z) :
  change_of rule v c = Stay -> new_value rule v c = v.
Proof.
  unfold change_of, new_value; destruct (update_value rule v c) as [[v' ch]|] eqn:E;
    [intros ->; eapply update_value_stay; exact E | reflexivity].
Qed.

Lemma src_perm (rule : Rule) (V C : Z -> Z) (l : list Z) :
  Permutation
    (map (fun j => (j, 1)) (filter (is_born rule V C) l) ++
     map (fun j => (j, -1)) (filter (is_dying rule V C) l))
    (flat_map (fun j => src_of j (change_of rule (V j) (C j))) l).
Proof.
  induction l as [|a l IH]; simpl; [constructor|].
  unfold is_born at 1, is_dying at 1.
  destruct (change_of rule (V a) (C a)); simpl; try exact IH.
  - constructor; exact IH.
  - rewrite <- Permutation_middle; constructor; exact IH.
Qed.

(** The value part of a value loop over the distinct cells [map idx L],
    recording born and dying cells. *)
Lemma record_fold (rule : Rule) (W nb : Z -> Z) (idx : Z -> Z) (L : list Z) :
  NoDup (map idx L) ->
  forall (w : Z -> Z) (sp dt : list Z), (forall a, In a L -> w (idx a) = W (idx a)) ->
  fold_left (fun '(vs, sp, dt) a =>
      let ch := change_of rule (W (idx a)) (nb (idx a)) in
      (write_value ch vs (idx a) (new_value rule (W (idx a)) (nb (idx a))),
       if change_eqb ch Born then sp ++ [idx a] else sp,
       if change_eqb ch Dying then dt ++ [idx a] else dt)) L (w, sp, dt) =
  (fun j => if mem j (map idx L) then new_value rule (W j) (nb j) else w j,
   sp ++ filter (is_born rule W nb) (map idx L),
   dt ++ filter (is_dying rule W nb) (map idx L)).
Proof.
  induction L as [|a L IH]; intros Hnd w sp dt Hw; simpl.
  - rewrite !app_nil_r; reflexivity.
  - inversion Hnd as [|? ? Ha Hnd']; subst.
    rewrite IH; [| exact Hnd' |].
    + unfold is_born at 2, is_dying at 2.
      f_equal; [f_equal|].
      * extensionality j; unfold mem; simpl; fold (mem j (map idx L)).
        destruct (Z.eqb_spec j (idx a)) as [->|Hne]; simpl.
        -- destruct (mem (idx a) (map idx L)) eqn:Hm.
           ++ apply mem_In in Hm; contradiction.
           ++ destruct (change_of rule (W (idx a)) (nb (idx a))) eqn:Ech; simpl;
                try (unfold upd; rewrite Z.eqb_refl; reflexivity).
              rewrite new_value_stay by exact Ech; apply Hw; left; reflexivity.
        -- destruct (mem j (map idx L)); [reflexivity|].
           destruct (change_of _ _ _); simpl; try reflexivity;
             unfold upd; rewrite (proj2 (Z.eqb_neq j (idx a)) Hne); reflexivity.
      * destruct (change_eqb _ Born); [rewrite <- app_assoc|]; reflexivity.
      * destruct (change_eqb _ Dying); [rewrite <- app_assoc|]; reflexivity.
    + intros a' Ha'.
      assert (Hne : idx a' <> idx a) by (intros E; apply Ha; rewrite <- E; apply in_map; exact Ha').
      destruct (change_of _ _ _); simpl; try (apply Hw; right; exact Ha');
        unfold upd; rewrite (proj2 (Z.eqb_neq _ _) Hne); apply Hw; right; exact Ha'.
Qed.

(** ** Atomic engine: the value phase *)

Lemma chunk_cells_disj (r c c' x : Z) :
  0 < r -> 0 <= c < r * r * r -> 0 <= c' < r * r * r -> c <> c' ->
  In x (chunk_cells r c) -> ~ In x (chunk_cells r c').
Proof.
  intros Hr Hc Hc' Hne Hx Hx'.
  apply in_chunk_cells in Hx as (o & Ho & ->), Hx' as (o' & Ho' & E).
  destruct (chunk_cell_index_inj r c' o' c o) as [E' _]; auto.
Qed.

Lemma chunk_cells_forallb (k c : Z) (f : Z -> bool) :
  forallb f (chunk_cells k c) =
  forallb (fun o => f (chunk_cell_index k c o)) (zrange 0 CHUNK_CELL_COUNT).
Proof. unfold chunk_cells; apply forallb_map_fun. Qed.

(** The value loop of one chunk, over its offsets. *)
Lemma chunk_record_fold (k c : Z) (rule : Rule) (W nb : Z -> Z) (sp dt : list Z) :
  0 < k -> 0 <= c < k * k * k ->
  fold_left (fun '(vs, sp, dt) a =>
      let ch := change_of rule (W (chunk_cell_index k c a)) (nb (chunk_cell_index k c a)) in
      (write_value ch vs (chunk_cell_index k c a)
         (new_value rule (W (chunk_cell_index k c a)) (nb (chunk_cell_index k c a))),
       if change_eqb ch Born then sp ++ [chunk_cell_index k c a] else sp,
       if change_eqb ch Dying then dt ++ [chunk_cell_index k c a] else dt))
    (zrange 0 CHUNK_CELL_COUNT) (W, sp, dt) =
  (fun j => if mem j (chunk_cells k c) then new_value rule (W j) (nb j) else W j,
   sp ++ filter (is_born rule W nb) (chunk_cells k c),
   dt ++ filter (is_dying rule W nb) (chunk_cells k c)).
Proof.
  intros Hk Hc; apply (record_fold rule W nb (chunk_cell_index k c)).
  - apply chunk_cells_NoDup; auto.
  - intros; reflexivity.
Qed.

Lemma atomic_update_values_fold (k c : Z) (W nb : Z -> Z) (rule : Rule) (sp dt : list Z) :
  0 < k -> 0 <= c < k * k * k ->
  Atomic.update_values W nb c k (k * CHUNK_SIZE) rule sp dt =
  if forallb (fun o => cell_ok rule (W (chunk_cell_index k c o)) (nb (chunk_cell_index k c o)))
       (zrange 0 CHUNK_CELL_COUNT)
  then Some (fold_left (fun '(vs, sp, dt) a =>
      let ch := change_of rule (W (chunk_cell_index k c a)) (nb (chunk_cell_index k c a)) in
      (write_value ch vs (chunk_cell_index k c a)
         (new_value rule (W (chunk_cell_index k c a)) (nb (chunk_cell_index k c a))),
       if change_eqb ch Born then sp ++ [chunk_cell_index k c a] else sp,
       if change_eqb ch Dying then dt ++ [chunk_cell_index k c a] else dt))
    (zrange 0 CHUNK_CELL_COUNT) (W, sp, dt))
  else None.
Proof.
  intros Hk Hc; unfold Atomic.update_values.
  rewrite (fold_phaseA rule (fun t o => fst (fst t) (chunk_cell_index k c o))
             (fun _ o => nb (chunk_cell_index k c o))
             (fun t o v ch =>
                let '(vs, sp, dt) := t in
                (write_value ch vs (chunk_cell_index k c o) v,
                 if change_eqb ch Born then sp ++ [chunk_cell_index k c o] else sp,
                 if change_eqb ch Dying then dt ++ [chunk_cell_index k c o] else dt))).
  - cbn [fst]; destruct (forallb _ _); [|reflexivity].
    apply (f_equal Some), fold_left_ext_on; intros a [[vs sp'] dt'] _; reflexivity.
  - intros [[vs sp'] dt'] a; reflexivity.
  - apply zrange_NoDup.
  - intros [[vs sp'] dt'] a a' v ch Ha Ha' Hne; cbn [fst]; split; [|reflexivity].
    apply offsets_In in Ha, Ha'.
    assert (E : chunk_cell_index k c a <> chunk_cell_index k c a').
    { intros E; apply Hne; apply (chunk_cell_index_inj k c a c a'); auto. }
    destruct ch; simpl; try reflexivity;
      unfold upd; rewrite (proj2 (Z.eqb_neq _ _) (not_eq_sym E)); reflexivity.
Qed.

(** [LeddooAtomic::update_values] on chunk [c]: it panics when one of the
    chunk's cells does, and otherwise updates exactly the chunk's cells and
    records the chunk's born and dying cells in index order. *)
Lemma atomic_update_values_spec (k c : Z) (W nb : Z -> Z) (rule : Rule) (sp dt : list Z) :
  0 < k -> 0 <= c < k * k * k ->
  Atomic.update_values W nb c k (k * CHUNK_SIZE) rule sp dt =
  if forallb (fun j => cell_ok rule (W j) (nb j)) (chunk_cells k c)
  then Some (fun j => if mem j (chunk_cells k c) then new_value rule (W j) (nb j) else W j,
             sp ++ filter (is_born rule W nb) (chunk_cells k c),
             dt ++ filter (is_dying rule W nb) (chunk_cells k c))
  else None.
Proof.
  intros Hk Hc; rewrite atomic_update_values_fold, chunk_cells_forallb by auto.
  destruct (forallb _ _); [|reflexivity].
  rewrite chunk_record_fold by auto; reflexivity.
Qed.

Lemma forallb_cons {A : Type} (f : A -> bool) (a : A) (l : list A) :
  forallb f (a :: l) = f a && forallb f l.
Proof. reflexivity. Qed.

Lemma fold_opt_cons {S A : Type} (f : S -> A -> option S) (a : A) (l : list A) (s : S) :
  fold_opt f (a :: l) s = match f s a with None => None | Some s' => fold_opt f l s' end.
Proof. reflexivity. Qed.

Lemma flat_map_cons {A B : Type} (f : A -> list B) (a : A) (l : list A) :
  flat_map f (a :: l) = f a ++ flat_map f l.
Proof. reflexivity. Qed.

Lemma mem_chunk_other (k c c' j : Z) :
  0 < k -> 0 <= c < k * k * k -> 0 <= c' < k * k * k -> c <> c' ->
  In j (chunk_cells k c') -> mem j (chunk_cells k c) = false.
Proof.
  intros Hk Hc Hc' Hne Hj; destruct (mem j (chunk_cells k c)) eqn:Hm; [|reflexivity].
  apply mem_In in Hm; exfalso; exact (chunk_cells_disj k c c' j Hk Hc Hc' Hne Hm Hj).
Qed.

Lemma atomic_value_step_eq (st : Atomic.LeddooAtomic) (rule : Rule) (k : Z) W lists c :
  0 < k -> Atomic.chunk_radius st = k -> 0 <= c < k * k * k ->
  Atomic.value_step st rule (W, lists) c =
  let nb := Atomic.neighbors st in
  if forallb (fun j => cell_ok rule (W j) (nb j)) (chunk_cells k c)
  then Some (fun j => if mem j (chunk_cells k c) then new_value rule (W j) (nb j) else W j,
             lists ++ [(filter (is_born rule W nb) (chunk_cells k c),
                        filter (is_dying rule W nb) (chunk_cells k c))])
  else None.
Proof.
  intros Hk Hr Hc; unfold Atomic.value_step, Atomic.bounds; rewrite Hr.
  rewrite atomic_update_values_spec by auto; cbv zeta.
  destruct (forallb _ _); reflexivity.
Qed.

(** The value tasks of the distinct chunks [L], run one after the other. *)
Lemma atomic_value_steps (st : Atomic.LeddooAtomic) (rule : Rule) (k : Z) (L : list Z) :
  0 < k -> Atomic.chunk_radius st = k -> NoDup L ->
  (forall c, In c L -> 0 <= c < k * k * k) ->
  forall W lists,
  fold_opt (Atomic.value_step st rule) L (W, lists) =
  let nb := Atomic.neighbors st in
  if forallb (fun c => forallb (fun j => cell_ok rule (W j) (nb j)) (chunk_cells k c)) L
  then Some (fun j => if mem j (flat_map (chunk_cells k) L) then new_value rule (W j) (nb j)
                      else W j,
             lists ++ map (fun c => (filter (is_born rule W nb) (chunk_cells k c),
                                     filter (is_dying rule W nb) (chunk_cells k c))) L)
  else None.
Proof.
  intros Hk Hr; induction L as [|c L IH]; intros Hnd HL W lists.
  - simpl; rewrite app_nil_r; reflexivity.
  - apply NoDup_cons_iff in Hnd as [Hc Hnd'].
    assert (Hcr : 0 <= c < k * k * k) by (apply HL; left; reflexivity).
    assert (HLr : forall c', In c' L -> 0 <= c' < k * k * k) by (intros; apply HL; right; auto).
    assert (Hother : forall c' j v, In c' L -> In j (chunk_cells k c') ->
              (if mem j (chunk_cells k c) then v else W j) = W j).
    { intros c' j v Hc' Hj; rewrite (mem_chunk_other k c c' j); auto.
      intros ->; contradiction. }
    rewrite fold_opt_cons, (atomic_value_step_eq st rule k) by auto; cbv zeta; rewrite forallb_cons.
    destruct (forallb (fun j => cell_ok rule (W j) (Atomic.neighbors st j)) (chunk_cells k c));
      [|reflexivity].
    cbv beta iota zeta; rewrite IH by auto; cbv zeta; rewrite andb_true_l.
    rewrite (forallb_ext_on _ (fun c' => forallb (fun j => cell_ok rule (W j)
               (Atomic.neighbors st j)) (chunk_cells k c')) L).
    2:{ intros c' Hc'; apply forallb_ext_on; intros j Hj; cbv beta; rewrite (Hother c'); auto. }
    destruct (forallb _ L); [|reflexivity].
    f_equal; f_equal.
    + extensionality j; rewrite flat_map_cons, mem_app.
      destruct (mem j (chunk_cells k c)) eqn:Hm; simpl orb.
      * destruct (mem j (flat_map (chunk_cells k) L)) eqn:Hm'; [|reflexivity].
        apply mem_In, in_flat_map in Hm' as (c' & Hc' & Hj).
        rewrite (mem_chunk_other k c c' j) in Hm by (auto; intros ->; contradiction).
        discriminate.
      * reflexivity.
    + rewrite <- app_assoc, map_cons; f_equal; cbn [app]; f_equal.
      apply map_ext_in; intros c' Hc'.
      f_equal; apply filter_ext_in; intros j Hj; unfold is_born, is_dying;
        cbv beta; rewrite (Hother c'); auto.
Qed.

Lemma atomic_value_phase_spec (st : Atomic.LeddooAtomic) (rule : Rule) (k : Z) :
  0 < k -> Atomic.chunk_radius st = k -> Atomic.chunk_count st = k * k * k ->
  Atomic.value_phase st rule =
  let W := Atomic.values st in
  let nb := Atomic.neighbors st in
  if forallb (fun j => cell_ok rule (W j) (nb j))
       (zrange 0 ((k * CHUNK_SIZE) * (k * CHUNK_SIZE) * (k * CHUNK_SIZE)))
  then Some (fun j => if mem j (all_chunk_cells k) then new_value rule (W j) (nb j) else W j,
             map (fun c => (filter (is_born rule W nb) (chunk_cells k c),
                            filter (is_dying rule W nb) (chunk_cells k c)))
                 (zrange 0 (k * k * k)))
  else None.
Proof.
  intros Hk Hr Hc; unfold Atomic.value_phase; rewrite Hc.
  pose proof (zrange_NoDup 0 (k * k * k)) as Hnd.
  assert (HL : forall c, In c (zrange 0 (k * k * k)) -> 0 <= c < k * k * k)
    by (intros c; apply zrange_In).
  rewrite (atomic_value_steps st rule k) by auto.
  cbv zeta; rewrite <- forallb_flat_map.
  change (flat_map (chunk_cells k) (zrange 0 (k * k * k))) with (all_chunk_cells k).
  rewrite (forallb_perm _ _ _ (all_chunk_cells_perm k Hk)).
  destruct (forallb _ _); reflexivity.
Qed.

(** ** Atomic engine: the neighbour phase *)

Lemma atomic_update_neighbors_fold (k : Z) (rule : Rule) (inc : bool) (S : list Z) :
  1 <= k ->
  (forall i, In i S -> 0 <= i < (k * CHUNK_SIZE) * (k * CHUNK_SIZE) * (k * CHUNK_SIZE)) ->
  forall nb,
  fold_left (fun nb index => Atomic.update_neighbors nb index (k * CHUNK_SIZE) rule inc) S nb =
  apply_ops nb (signed_ops (k * CHUNK_SIZE) (get_neighbour_iter (neighbour_method rule))
                  (map (fun i => (i, sgn inc)) S)).
Proof.
  intros Hk; induction S as [|i S IH]; intros HS nb; [reflexivity|].
  rewrite map_cons; cbn [fold_left].
  change ((i, sgn inc) :: map (fun i => (i, sgn inc)) S)
    with ([(i, sgn inc)] ++ map (fun i => (i, sgn inc)) S).
  rewrite signed_ops_app, apply_ops_app, <- atomic_update_neighbors_ops by (auto; apply HS; left; auto).
  apply IH; intros; apply HS; right; auto.
Qed.

Definition signed_srcs (sd : list Z * list Z) : list (Z * Z) :=
  map (fun i => (i, 1)) (fst sd) ++ map (fun i => (i, -1)) (snd sd).

Lemma atomic_neighbor_tasks (k : Z) (rule : Rule) (lists : list (list Z * list Z)) :
  1 <= k ->
  (forall sd i, In sd lists -> In i (fst sd ++ snd sd) ->
     0 <= i < (k * CHUNK_SIZE) * (k * CHUNK_SIZE) * (k * CHUNK_SIZE)) ->
  forall nb,
  fold_left (Atomic.neighbor_task (k * CHUNK_SIZE) rule) lists nb =
  apply_ops nb (signed_ops (k * CHUNK_SIZE) (get_neighbour_iter (neighbour_method rule))
                  (flat_map signed_srcs lists)).
Proof.
  intros Hk; induction lists as [|sd lists IH]; intros Hl nb; [reflexivity|].
  cbn [fold_left]; rewrite flat_map_cons, signed_ops_app, apply_ops_app, IH.
  - assert (H1 : forall i, In i (fst sd) ->
              0 <= i < (k * CHUNK_SIZE) * (k * CHUNK_SIZE) * (k * CHUNK_SIZE))
      by (intros i Hi; apply (Hl sd); [left; reflexivity | apply in_or_app; left; exact Hi]).
    assert (H2 : forall i, In i (snd sd) ->
              0 <= i < (k * CHUNK_SIZE) * (k * CHUNK_SIZE) * (k * CHUNK_SIZE))
      by (intros i Hi; apply (Hl sd); [left; reflexivity | apply in_or_app; right; exact Hi]).
    f_equal; unfold Atomic.neighbor_task, signed_srcs.
    rewrite (atomic_update_neighbors_fold k rule true (fst sd) Hk H1),
      (atomic_update_neighbors_fold k rule false (snd sd) Hk H2), signed_ops_app, apply_ops_app.
    reflexivity.
  - intros sd' i Hsd Hi; apply (Hl sd'); [right|]; auto.
Qed.

Lemma Permutation_flat_map_pointwise {A B : Type} (f g : A -> list B) (l : list A) :
  (forall x, In x l -> Permutation (f x) (g x)) -> Permutation (flat_map f l) (flat_map g l).
Proof.
  induction l as [|a l IH]; intros H; [constructor|].
  rewrite !flat_map_cons; apply Permutation_app; [apply H; left; auto | apply IH; intros; apply H; right; auto].
Qed.

Lemma flat_map_map {A B C : Type} (f : B -> list C) (g : A -> B) (l : list A) :
  flat_map f (map g l) = flat_map (fun a => f (g a)) l.
Proof. induction l as [|a l IH]; [reflexivity|]; rewrite map_cons, !flat_map_cons, IH; reflexivity. Qed.

Lemma atomic_srcs_perm (k : Z) (rule : Rule) (W nb : Z -> Z) :
  0 < k ->
  Permutation
    (flat_map signed_srcs
       (map (fun c => (filter (is_born rule W nb) (chunk_cells k c),
                       filter (is_dying rule W nb) (chunk_cells k c))) (zrange 0 (k * k * k))))
    (flat_map (fun j => src_of j (change_of rule (W j) (nb j)))
       (zrange 0 ((k * CHUNK_SIZE) * (k * CHUNK_SIZE) * (k * CHUNK_SIZE)))).
Proof.
  intros Hk; rewrite flat_map_map.
  transitivity (flat_map (fun c => flat_map (fun j => src_of j (change_of rule (W j) (nb j)))
                                     (chunk_cells k c)) (zrange 0 (k * k * k))).
  - apply Permutation_flat_map_pointwise; intros c _; unfold signed_srcs; cbn [fst snd].
    apply src_perm.
  - rewrite <- flat_map_flat_map.
    change (flat_map (chunk_cells k) (zrange 0 (k * k * k))) with (all_chunk_cells k).
    apply Permutation_flat_map, all_chunk_cells_perm; exact Hk.
Qed.

Lemma mem_all_chunk_cells (k j : Z) :
  0 < k -> 0 <= j < (k * CHUNK_SIZE) * (k * CHUNK_SIZE) * (k * CHUNK_SIZE) ->
  mem j (all_chunk_cells k) = true.
Proof.
  intros Hk Hj; apply mem_In.
  apply (Permutation_in _ (Permutation_sym (all_chunk_cells_perm k Hk))), zrange_In; exact Hj.
Qed.

(** [LeddooAtomic::update] on a grid of [k^3] chunks computes [ref_step]. *)
Lemma atomic_update_ref (st : Atomic.LeddooAtomic) (rule : Rule) (k : Z) :
  1 <= k -> Atomic.chunk_radius st = k -> Atomic.chunk_count st = k * k * k ->
  match Atomic.update st rule,
        ref_step rule (k * CHUNK_SIZE) (Atomic.values st) (Atomic.neighbors st) with
  | Some st', Some (V', C') =>
      eq_on ((k * CHUNK_SIZE) * (k * CHUNK_SIZE) * (k * CHUNK_SIZE)) (Atomic.values st') V' /\
      Atomic.neighbors st' = C' /\
      Atomic.chunk_radius st' = k /\ Atomic.chunk_count st' = k * k * k
  | None, None => True
  | _, _ => False
  end.
Proof.
  intros Hk Hr Hc; unfold Atomic.update.
  rewrite (atomic_value_phase_spec st rule k) by (auto; lia).
  unfold ref_step; cbv zeta.
  destruct (forallb _ _); [|exact I].
  cbn [Atomic.values Atomic.neighbors Atomic.chunk_radius Atomic.chunk_count].
  split; [|split; [|split; assumption]].
  - intros j Hj; rewrite mem_all_chunk_cells by (auto; lia); reflexivity.
  - unfold Atomic.bounds; rewrite Hr, atomic_neighbor_tasks; [| exact Hk |].
    + apply phaseB_perm, signed_ops_perm, atomic_srcs_perm; lia.
    + intros sd i Hsd Hi; apply in_map_iff in Hsd as (c & <- & Hc').
      apply zrange_In in Hc'; cbn [fst snd] in Hi.
      apply in_app_or in Hi as [Hi|Hi]; apply filter_In in Hi as [Hi _];
        apply in_chunk_cells in Hi as (o & Ho & ->); apply chunk_cell_index_range; auto; lia.
Qed.

(** ** Single-threaded engine *)

Definition single_V (cs : Z -> Single.Cell) : Z -> Z := fun j => Single.value (cs j).
Definition single_C (cs : Z -> Single.Cell) : Z -> Z := fun j => Single.neighbors (cs j).

(** The value loop of [LeddooSingleThreaded::update] over distinct indices. *)
Lemma single_record_fold (rule : Rule) (cs0 : Z -> Single.Cell) (L : list Z) :
  NoDup L ->
  forall cs sp dt, (forall a, In a L -> cs a = cs0 a) ->
  let r := fold_left (fun '(cs, sp, dt) a =>
      (write_value (change_of rule (single_V cs0 a) (single_C cs0 a)) cs a
         (Single.mkCell (new_value rule (single_V cs0 a) (single_C cs0 a))
                        (Single.neighbors (cs a))),
       if change_eqb (change_of rule (single_V cs0 a) (single_C cs0 a)) Born
       then sp ++ [a] else sp,
       if change_eqb (change_of rule (single_V cs0 a) (single_C cs0 a)) Dying
       then dt ++ [a] else dt)) L (cs, sp, dt) in
  (forall j, Single.value (fst (fst r) j) =
             if mem j L then new_value rule (single_V cs0 j) (single_C cs0 j)
             else Single.value (cs j)) /\
  (forall j, Single.neighbors (fst (fst r) j) = Single.neighbors (cs j)) /\
  snd (fst r) = sp ++ filter (is_born rule (single_V cs0) (single_C cs0)) L /\
  snd r = dt ++ filter (is_dying rule (single_V cs0) (single_C cs0)) L.
Proof.
  induction L as [|a L IH]; intros Hnd cs sp dt Hcs r.
  - subst r; simpl; rewrite !app_nil_r; auto.
  - apply NoDup_cons_iff in Hnd as [Ha Hnd'].
    subst r; cbn [fold_left].
    set (ch := change_of rule (single_V cs0 a) (single_C cs0 a)).
    set (cs1 := write_value ch cs a (Single.mkCell (new_value rule (single_V cs0 a) (single_C cs0 a))
                                          (Single.neighbors (cs a)))).
    assert (Hcs1 : forall j, j <> a -> cs1 j = cs j).
    { intros j Hj; subst cs1; destruct ch; simpl; try reflexivity;
        unfold upd; rewrite (proj2 (Z.eqb_neq _ _) Hj); reflexivity. }
    assert (Hv1 : Single.value (cs1 a) = new_value rule (single_V cs0 a) (single_C cs0 a)).
    { subst cs1; destruct ch eqn:Ech; simpl; try (unfold upd; rewrite Z.eqb_refl; reflexivity).
      rewrite new_value_stay by exact Ech; unfold single_V; rewrite Hcs; auto; left; auto. }
    assert (Hn1 : Single.neighbors (cs1 a) = Single.neighbors (cs a)).
    { subst cs1; destruct ch; simpl; try reflexivity; unfold upd; rewrite Z.eqb_refl; reflexivity. }
    destruct (IH Hnd' cs1 (if change_eqb ch Born then sp ++ [a] else sp)
                (if change_eqb ch Dying then dt ++ [a] else dt)) as (Hv & Hn & Hsp & Hdt).
    { intros a' Ha'; rewrite Hcs1 by (intros ->; contradiction); apply Hcs; right; auto. }
    split; [|split; [|split]].
    + intros j; rewrite Hv; unfold mem; simpl existsb; fold (mem j L).
      destruct (Z.eqb_spec j a) as [->|Hne]; simpl orb.
      * destruct (mem a L) eqn:Hm; [apply mem_In in Hm; contradiction | exact Hv1].
      * destruct (mem j L); [reflexivity | rewrite Hcs1; auto].
    + intros j; rewrite Hn; destruct (Z.eqb_spec j a) as [->|Hne]; [exact Hn1 | rewrite Hcs1; auto].
    + rewrite Hsp; unfold is_born at 2; simpl filter; fold ch.
      destruct (change_eqb ch Born); [rewrite <- app_assoc|]; reflexivity.
    + rewrite Hdt; unfold is_dying at 2; simpl filter; fold ch.
      destruct (change_eqb ch Dying); [rewrite <- app_assoc|]; reflexivity.
Qed.

Lemma single_value_phase_fold (st : Single.LeddooSingleThreaded) (rule : Rule) :
  Single.value_phase st rule =
  let n := Single.size st * Single.size st * Single.size st in
  let cs0 := Single.cells st in
  if forallb (fun j => cell_ok rule (single_V cs0 j) (single_C cs0 j)) (zrange 0 n)
  then Some (fold_left (fun '(cs, sp, dt) a =>
      (write_value (change_of rule (single_V cs0 a) (single_C cs0 a)) cs a
         (Single.mkCell (new_value rule (single_V cs0 a) (single_C cs0 a))
                        (Single.neighbors (cs a))),
       if change_eqb (change_of rule (single_V cs0 a) (single_C cs0 a)) Born
       then sp ++ [a] else sp,
       if change_eqb (change_of rule (single_V cs0 a) (single_C cs0 a)) Dying
       then dt ++ [a] else dt)) (zrange 0 n) (cs0, [], []))
  else None.
Proof.
  unfold Single.value_phase.
  rewrite (fold_phaseA rule (fun t a => Single.value (fst (fst t) a))
             (fun t a => Single.neighbors (fst (fst t) a))
             (fun t a v ch =>
                let '(cs, sp, dt) := t in
                (write_value ch cs a (Single.mkCell v (Single.neighbors (cs a))),
                 if change_eqb ch Born then sp ++ [a] else sp,
                 if change_eqb ch Dying then dt ++ [a] else dt))).
  - cbn [fst]; cbv zeta; destruct (forallb _ _); [|reflexivity].
    apply (f_equal Some), fold_left_ext_on; intros a [[cs sp] dt] _; reflexivity.
  - intros [[cs sp] dt] a; reflexivity.
  - apply zrange_NoDup.
  - intros [[cs sp] dt] a a' v ch _ _ Hne; cbn [fst].
    destruct ch; simpl; try (split; reflexivity);
      unfold upd; rewrite (proj2 (Z.eqb_neq a' a) (not_eq_sym Hne)); split; reflexivity.
Qed.

Lemma single_bump_fold (pos : IVec3) (inc : bool) (b : Z) (dirs : list IVec3) :
  forall st0, Single.size st0 = b ->
  let r := fold_left (fun st dir =>
      let neighbor_pos := wrap (vadd pos dir) (Single.size st) in
      let index := vec_to_index (Single.size st) neighbor_pos in
      let c := Single.cells st index in
      {| Single.cells := upd (Single.cells st) index
                           (Single.mkCell (Single.value c) (bump inc (Single.neighbors c)));
         Single.size := Single.size st |}) dirs st0 in
  Single.size r = b /\
  (forall j, Single.value (Single.cells r j) = Single.value (Single.cells st0 j)) /\
  (forall j, Single.neighbors (Single.cells r j) =
             apply_ops (single_C (Single.cells st0))
               (map (fun d => (vec_to_index b (wrap (vadd pos d) b), sgn inc)) dirs) j).
Proof.
  induction dirs as [|d dirs IH]; intros st0 Hs r; subst r; cbn [fold_left map].
  - auto.
  - cbv zeta; rewrite Hs.
    set (t := vec_to_index b (wrap (vadd pos d) b)).
    destruct (IH {| Single.cells := upd (Single.cells st0) t
                      (Single.mkCell (Single.value (Single.cells st0 t))
                                     (bump inc (Single.neighbors (Single.cells st0 t))));
                    Single.size := b |} eq_refl) as (H1 & H2 & H3).
    split; [exact H1 | split].
    + intros j; rewrite H2; cbn [Single.cells]; unfold upd.
      destruct (Z.eqb_spec j t) as [->|]; reflexivity.
    + intros j; rewrite H3, apply_ops_cons; f_equal.
      extensionality j'; unfold single_C, upd; cbn [Single.cells].
      destruct (j' =? t); [rewrite bump_sgn|]; reflexivity.
Qed.

Lemma single_update_neighbors_spec (st : Single.LeddooSingleThreaded) (rule : Rule)
    (i : Z) (inc : bool) :
  let st' := Single.update_neighbors st rule i inc in
  Single.size st' = Single.size st /\
  (forall j, Single.value (Single.cells st' j) = Single.value (Single.cells st j)) /\
  (forall j, Single.neighbors (Single.cells st' j) =
     apply_ops (single_C (Single.cells st))
       (signed_ops (Single.size st) (get_neighbour_iter (neighbour_method rule))
          [(i, sgn inc)]) j).
Proof.
  intros st'; subst st'; unfold Single.update_neighbors, signed_ops; cbv zeta.
  rewrite flat_map_cons; cbn [flat_map]; rewrite app_nil_r.
  apply single_bump_fold; reflexivity.
Qed.

Lemma single_update_neighbors_fold (rule : Rule) (inc : bool) (S : list Z) :
  forall st0,
  let r := fold_left (fun st index => Single.update_neighbors st rule index inc) S st0 in
  Single.size r = Single.size st0 /\
  (forall j, Single.value (Single.cells r j) = Single.value (Single.cells st0 j)) /\
  (forall j, Single.neighbors (Single.cells r j) =
     apply_ops (single_C (Single.cells st0))
       (signed_ops (Single.size st0) (get_neighbour_iter (neighbour_method rule))
          (map (fun i => (i, sgn inc)) S)) j).
Proof.
  induction S as [|i S IH]; intros st0 r; subst r; cbn [fold_left map].
  - auto.
  - destruct (single_update_neighbors_spec st0 rule i inc) as (A1 & A2 & A3).
    destruct (IH (Single.update_neighbors st0 rule i inc)) as (B1 & B2 & B3).
    split; [congruence | split].
    + intros j; rewrite B2; apply A2.
    + intros j; rewrite B3, A1.
      change ((i, sgn inc) :: map (fun i => (i, sgn inc)) S)
        with ([(i, sgn inc)] ++ map (fun i => (i, sgn inc)) S).
      rewrite signed_ops_app, apply_ops_app; f_equal.
      extensionality j'; apply A3.
Qed.

(** [LeddooSingleThreaded::update] on a grid of side [b] equal to the rule's
    [bounding_size] computes [ref_step]. *)
Lemma single_update_ref (st : Single.LeddooSingleThreaded) (rule : Rule) (b : Z) :
  Single.size st = b -> bounding_size rule = b ->
  match Single.update st rule,
        ref_step rule b (single_V (Single.cells st)) (single_C (Single.cells st)) with
  | Some st', Some (V', C') =>
      eq_on (b * b * b) (single_V (Single.cells st')) V' /\
      (forall j, single_C (Single.cells st') j = C' j) /\
      Single.size st' = b
  | None, None => True
  | _, _ => False
  end.
Proof.
  intros Hs Hr; unfold Single.update.
  assert (Hset : Single.set_size st (bounding_size rule) = st)
    by (unfold Single.set_size; rewrite Hr, Hs, Z.eqb_refl; reflexivity).
  cbv zeta; rewrite Hset, single_value_phase_fold; unfold ref_step; cbv zeta; subst b.
  destruct (forallb _ _); [|exact I].
  pose proof (single_record_fold rule (Single.cells st) (zrange 0 (Single.size st * Single.size st * Single.size st))
                (zrange_NoDup _ _) (Single.cells st) [] [] (fun _ _ => eq_refl)) as HR.
  cbv zeta in HR.
  remember (fold_left _ (zrange 0 (Single.size st * Single.size st * Single.size st)) (Single.cells st, [], [])) as R eqn:ER.
  destruct R as [[cs' sp] dt]; cbn [fst snd] in HR; destruct HR as (Hv & Hn & -> & ->).
  clear ER; cbv beta iota zeta.
  set (st1 := {| Single.cells := cs'; Single.size := Single.size st |}).
  destruct (single_update_neighbors_fold rule true
              ([] ++ filter (is_born rule (single_V (Single.cells st)) (single_C (Single.cells st)))
                      (zrange 0 (Single.size st * Single.size st * Single.size st))) st1) as (A1 & A2 & A3).
  set (st2 := fold_left _ _ st1) in *.
  destruct (single_update_neighbors_fold rule false
              ([] ++ filter (is_dying rule (single_V (Single.cells st)) (single_C (Single.cells st)))
                      (zrange 0 (Single.size st * Single.size st * Single.size st))) st2) as (B1 & B2 & B3).
  set (st3 := fold_left _ _ st2) in *.
  split; [|split].
  - intros j Hj; unfold single_V at 1; rewrite B2, A2; cbn [Single.cells st1]; rewrite Hv.
    replace (mem j (zrange 0 (Single.size st * Single.size st * Single.size st))) with true; [reflexivity|].
    symmetry; apply mem_In, zrange_In; exact Hj.
  - intros j; unfold single_C at 1; rewrite B3, A1; cbn [Single.size st1].
    replace (single_C (Single.cells st2))
      with (apply_ops (single_C (Single.cells st1))
              (signed_ops (Single.size st) (get_neighbour_iter (neighbour_method rule))
                 (map (fun i => (i, sgn true))
                    ([] ++ filter (is_born rule (single_V (Single.cells st))
                                     (single_C (Single.cells st))) (zrange 0 (Single.size st * Single.size st * Single.size st))))))
      by (extensionality j'; symmetry; apply A3).
    rewrite <- apply_ops_app, <- signed_ops_app.
    replace (single_C (Single.cells st1)) with (single_C (Single.cells st))
      by (extensionality j'; unfold single_C; cbn [Single.cells st1]; rewrite Hn; reflexivity).
    match goal with
    | |- apply_ops ?n ?o1 ?x = apply_ops ?n ?o2 ?x =>
        rewrite (phaseB_perm n o1 o2); [reflexivity|]
    end.
    apply signed_ops_perm; rewrite !app_nil_l; apply src_perm.
  - rewrite B1, A1; reflexivity.
Qed.

(** ** Chunked engine: the layout *)

(** The cell at [offset] of chunk [chunk_index] of a [Vec<Chunk>]. *)
Definition mcell (chs : list Multi.Chunk) (c o : Z) : Multi.Cell :=
  nth (Z.to_nat c) chs Multi.chunk_default o.

(** The chunk and the offset of a grid position, the two halves of
    [Chunks::pos_to_index_ex]. *)
Definition pos_chunk (k : Z) (q : IVec3) : Z := pos_to_index (vquot q CHUNK_SIZE) k.
Definition pos_offset (q : IVec3) : Z := Multi.chunk_pos_to_index (vrem q CHUNK_SIZE).

(** The cell at flat index [j] of the [x + y*bound + z*bound^2] layout. *)
Definition mcell_flat (k : Z) (chs : list Multi.Chunk) (j : Z) : Multi.Cell :=
  let q := index_to_pos j (k * CHUNK_SIZE) in mcell chs (pos_chunk k q) (pos_offset q).

Definition multi_V (k : Z) (chs : list Multi.Chunk) (j : Z) : Z :=
  Multi.value (mcell_flat k chs j).
Definition multi_C (k : Z) (chs : list Multi.Chunk) (j : Z) : Z :=
  Multi.neighbours (mcell_flat k chs j).

Lemma pos_chunk_decomp (k : Z) (q : IVec3) :
  1 <= k -> in_box (k * CHUNK_SIZE) q ->
  0 <= pos_chunk k q < k * k * k /\ 0 <= pos_offset q < CHUNK_CELL_COUNT /\
  chunk_cell_pos k (pos_chunk k q) (pos_offset q) = q.
Proof.
  intros Hk Hq; destruct q as [x y z]; unfold in_box, CHUNK_SIZE in Hq; cbn [px py pz] in Hq.
  unfold pos_chunk, pos_offset, Multi.chunk_pos_to_index, chunk_cell_pos,
    chunk_offset_to_pos, vquot, vrem; cbn [px py pz].
  rewrite !Z.quot_div_nonneg, !Z.rem_mod_nonneg by (unfold CHUNK_SIZE; lia).
  assert (Bc : in_box k (ivec3 (x / CHUNK_SIZE) (y / CHUNK_SIZE) (z / CHUNK_SIZE))).
  { unfold in_box, CHUNK_SIZE; cbn [px py pz].
    repeat split; solve [apply Z.div_pos; lia | apply Z.div_lt_upper_bound; lia]. }
  assert (Bo : in_box CHUNK_SIZE
                 (ivec3 (x mod CHUNK_SIZE) (y mod CHUNK_SIZE) (z mod CHUNK_SIZE))).
  { unfold in_box, CHUNK_SIZE; cbn [px py pz]; repeat split; apply Z.mod_pos_bound; lia. }
  split; [apply pos_to_index_range; exact Bc|].
  split; [apply pos_to_index_range; exact Bo|].
  rewrite !pos_index_roundtrip by (auto; unfold CHUNK_SIZE; lia).
  unfold vadd, vscale; cbn [px py pz]; unfold CHUNK_SIZE.
  rewrite <- !Z_div_mod_eq_full; reflexivity.
Qed.

Lemma index_to_pos_cci (k c o : Z) :
  1 <= k -> 0 <= c < k * k * k -> 0 <= o < CHUNK_CELL_COUNT ->
  index_to_pos (chunk_cell_index k c o) (k * CHUNK_SIZE) = chunk_cell_pos k c o.
Proof.
  intros Hk Hc Ho; unfold chunk_cell_index.
  apply pos_index_roundtrip; [unfold CHUNK_SIZE; lia | apply chunk_cell_pos_box; auto; lia].
Qed.

Lemma pos_chunk_cci (k c o : Z) :
  1 <= k -> 0 <= c < k * k * k -> 0 <= o < CHUNK_CELL_COUNT ->
  pos_chunk k (chunk_cell_pos k c o) = c /\ pos_offset (chunk_cell_pos k c o) = o.
Proof.
  intros Hk Hc Ho.
  destruct (pos_chunk_decomp k (chunk_cell_pos k c o)) as (A & B & E);
    [exact Hk | apply chunk_cell_pos_box; auto; lia |].
  apply (chunk_cell_pos_inj k); auto; lia.
Qed.

Lemma mcell_flat_cci (k : Z) (chs : list Multi.Chunk) (c o : Z) :
  1 <= k -> 0 <= c < k * k * k -> 0 <= o < CHUNK_CELL_COUNT ->
  mcell_flat k chs (chunk_cell_index k c o) = mcell chs c o.
Proof.
  intros Hk Hc Ho; unfold mcell_flat; rewrite index_to_pos_cci by auto.
  destruct (pos_chunk_cci k c o Hk Hc Ho) as [-> ->]; reflexivity.
Qed.

Lemma cci_of_flat (k j : Z) :
  1 <= k -> 0 <= j < (k * CHUNK_SIZE) * (k * CHUNK_SIZE) * (k * CHUNK_SIZE) ->
  let q := index_to_pos j (k * CHUNK_SIZE) in
  0 <= pos_chunk k q < k * k * k /\ 0 <= pos_offset q < CHUNK_CELL_COUNT /\
  chunk_cell_index k (pos_chunk k q) (pos_offset q) = j.
Proof.
  intros Hk Hj q.
  destruct (pos_chunk_decomp k q) as (A & B & E);
    [exact Hk | apply index_to_pos_box; [unfold CHUNK_SIZE; lia | exact Hj] |].
  split; [exact A | split; [exact B |]].
  unfold chunk_cell_index; rewrite E; apply index_pos_roundtrip; unfold CHUNK_SIZE; lia.
Qed.

Lemma index_to_pos_ex_split (k c o : Z) :
  0 <= c -> 0 <= o < CHUNK_CELL_COUNT ->
  Multi.index_to_pos_ex (c * CHUNK_CELL_COUNT + o) k = chunk_cell_pos k c o.
Proof.
  intros Hc Ho; unfold Multi.index_to_pos_ex, Multi.index_to_chunk_index,
    Multi.index_to_chunk_offset, chunk_cell_pos.
  assert (Hpos : 0 < CHUNK_CELL_COUNT) by (unfold CHUNK_CELL_COUNT, CHUNK_SIZE; lia).
  rewrite Z.div_add_l, Z.div_small, Z.add_0_r by lia.
  rewrite Z.add_comm, Z_mod_plus_full, Z.mod_small by lia; reflexivity.
Qed.

Lemma pos_to_index_ex_split (k : Z) (q : IVec3) :
  Multi.pos_to_index_ex q k = pos_chunk k q * CHUNK_CELL_COUNT + pos_offset q.
Proof. reflexivity. Qed.

(** ** Counter updates, slot by slot *)

Lemma apply_ops_at (nb : Z -> Z) (ops : list (Z * Z)) (j : Z) :
  apply_ops nb ops j =
  fold_left (fun v '(t, d) => if t =? j then u8 (v + d) else v) ops (nb j).
Proof.
  revert nb; induction ops as [|[t d] ops IH]; intros nb; [reflexivity|].
  rewrite apply_ops_cons, IH; cbn [fold_left]; unfold upd.
  destruct (Z.eqb_spec j t), (Z.eqb_spec t j); subst; congruence.
Qed.

(** Slot [j] after the updates only depends on slot [j] before them. *)
Lemma apply_ops_pt (f g : Z -> Z) (ops : list (Z * Z)) (j : Z) :
  f j = g j -> apply_ops f ops j = apply_ops g ops j.
Proof. intros E; rewrite !apply_ops_at, E; reflexivity. Qed.

(** ... and on the updates aimed at it. *)
Lemma apply_ops_filter (nb : Z -> Z) (ops : list (Z * Z)) (j : Z) :
  apply_ops nb ops j = apply_ops nb (filter (fun op => fst op =? j) ops) j.
Proof.
  rewrite !apply_ops_at; generalize (nb j); induction ops as [|[t d] ops IH]; intros v;
    [reflexivity|].
  simpl; destruct (t =? j) eqn:E; simpl; rewrite ?E; apply IH.
Qed.

(** Renaming the slots by a map injective on the slots involved. *)
Lemma apply_ops_transport (h : Z -> Z) (D : Z -> Prop) (g : Z -> Z)
    (ops : list (Z * Z)) (x : Z) :
  (forall a a', D a -> D a' -> h a = h a' -> a = a') ->
  D x -> (forall op, In op ops -> D (fst op)) ->
  apply_ops (fun o => g (h o)) ops x =
  apply_ops g (map (fun '(t, d) => (h t, d)) ops) (h x).
Proof.
  intros Hinj Hx Hops; rewrite !apply_ops_at; generalize (g (h x)).
  induction ops as [|[t d] ops IH]; intros v; [reflexivity|].
  cbn [map fold_left].
  replace (h t =? h x) with (t =? x).
  - apply IH; intros op Hop; apply Hops; right; exact Hop.
  - assert (Ht : D t) by (apply (Hops (t, d)); left; reflexivity).
    destruct (Z.eqb_spec t x) as [->|Hne]; [symmetry; apply Z.eqb_refl|].
    symmetry; apply Z.eqb_neq; intros E; apply Hne, Hinj; auto.
Qed.

(** ** Chunked engine: the serial neighbour patches *)

Lemma length_modify_nth {A : Type} (n : nat) (f : A -> A) (l : list A) :
  length (Multi.modify_nth n f l) = length l.
Proof.
  revert n; induction l as [|a l IH]; intros [|n]; simpl; auto.
Qed.

Lemma nth_modify_nth {A : Type} (n i : nat) (f : A -> A) (l : list A) (d : A) :
  (n < length l)%nat ->
  nth i (Multi.modify_nth n f l) d = if Nat.eqb i n then f (nth i l d) else nth i l d.
Proof.
  revert n i; induction l as [|a l IH]; intros n i Hn; [simpl in Hn; lia|].
  destruct n as [|n], i as [|i]; simpl; auto.
  apply IH; simpl in Hn; lia.
Qed.

Lemma mcell_modify (chs : list Multi.Chunk) (c' o' : Z) (F : Multi.Cell -> Multi.Cell)
    (c o : Z) :
  (Z.to_nat c' < length chs)%nat ->
  mcell (Multi.modify_nth (Z.to_nat c') (fun ch => upd ch o' (F (ch o'))) chs) c o =
  if Nat.eqb (Z.to_nat c) (Z.to_nat c') && (o =? o') then F (mcell chs c o) else mcell chs c o.
Proof.
  intros Hc; unfold mcell; rewrite nth_modify_nth by exact Hc.
  destruct (Nat.eqb_spec (Z.to_nat c) (Z.to_nat c')) as [E|]; simpl; [|reflexivity].
  unfold upd; destruct (Z.eqb_spec o o') as [->|]; [rewrite E|]; reflexivity.
Qed.

Lemma multi_bump_pos (k : Z) (chs : list Multi.Chunk) (q : IVec3) (inc : bool) :
  1 <= k -> length chs = Z.to_nat (k * k * k) -> in_box (k * CHUNK_SIZE) q ->
  let index := Multi.pos_to_index_ex q k in
  let chs' := Multi.modify_nth (Z.to_nat (Multi.index_to_chunk_index index))
                (fun ch => upd ch (Multi.index_to_chunk_offset index)
                             (Multi.bump_cell inc (ch (Multi.index_to_chunk_offset index)))) chs in
  let t := pos_to_index q (k * CHUNK_SIZE) in
  length chs' = length chs /\
  (forall j, multi_V k chs' j = multi_V k chs j) /\
  eq_on ((k * CHUNK_SIZE) * (k * CHUNK_SIZE) * (k * CHUNK_SIZE))
    (multi_C k chs') (upd (multi_C k chs) t (bump inc (multi_C k chs t))).
Proof.
  intros Hk Hl Hq index chs' t.
  destruct (pos_chunk_decomp k q Hk Hq) as (Hc & Ho & Eq).
  assert (Hpos : 0 < CHUNK_CELL_COUNT) by (unfold CHUNK_CELL_COUNT, CHUNK_SIZE; lia).
  assert (Ei : Multi.index_to_chunk_index index = pos_chunk k q).
  { unfold index, Multi.index_to_chunk_index; rewrite pos_to_index_ex_split.
    rewrite Z.div_add_l, Z.div_small, Z.add_0_r by lia; reflexivity. }
  assert (Eo : Multi.index_to_chunk_offset index = pos_offset q).
  { unfold index, Multi.index_to_chunk_offset; rewrite pos_to_index_ex_split.
    rewrite Z.add_comm, Z_mod_plus_full, Z.mod_small by lia; reflexivity. }
  assert (Hlt : (Z.to_nat (pos_chunk k q) < length chs)%nat) by (rewrite Hl; lia).
  unfold chs'; rewrite Ei, Eo; clear chs' Ei Eo index.
  split; [apply length_modify_nth|split].
  - intros j; unfold multi_V, mcell_flat; rewrite mcell_modify by exact Hlt.
    destruct (_ && _); reflexivity.
  - intros j Hj.
    destruct (cci_of_flat k j Hk Hj) as (Hcj & Hoj & Ej).
    unfold multi_C at 1, mcell_flat; rewrite mcell_modify by exact Hlt.
    unfold upd, multi_C, mcell_flat.
    assert (Et : t = chunk_cell_index k (pos_chunk k q) (pos_offset q))
      by (unfold t, chunk_cell_index; rewrite Eq; reflexivity).
    set (qj := index_to_pos j (k * CHUNK_SIZE)) in *.
    destruct (Z.eqb_spec j t) as [Ejt|Ejt].
    + assert (E2 : pos_chunk k qj = pos_chunk k q /\ pos_offset qj = pos_offset q).
      { apply (chunk_cell_index_inj k); try lia; rewrite Ej, <- Et; exact Ejt. }
      destruct E2 as [E1 E2]; rewrite E1, E2, Nat.eqb_refl, Z.eqb_refl; cbn [andb].
      rewrite Et, index_to_pos_cci by (auto; lia).
      rewrite Eq; reflexivity.
    + destruct (Nat.eqb_spec (Z.to_nat (pos_chunk k qj)) (Z.to_nat (pos_chunk k q))) as [E1|];
        [|reflexivity].
      destruct (Z.eqb_spec (pos_offset qj) (pos_offset q)) as [E2|]; [|reflexivity].
      exfalso; apply Ejt; rewrite <- Ej, Et, E2.
      f_equal; lia.
Qed.

(** The flat index of the cell at chunk-major index [g]. *)
Definition chunk_index_flat (k g : Z) : Z :=
  chunk_cell_index k (Multi.index_to_chunk_index g) (Multi.index_to_chunk_offset g).

Lemma fold_left_cons {A B : Type} (f : A -> B -> A) (b : B) (l : list B) (a : A) :
  fold_left f (b :: l) a = fold_left f l (f a b).
Proof. reflexivity. Qed.

Lemma eq_on_upd_bump (n : Z) (f F : Z -> Z) (t : Z) (inc : bool) :
  eq_on n f F -> 0 <= t < n ->
  eq_on n (upd f t (bump inc (f t))) (upd F t (u8 (F t + sgn inc))).
Proof.
  intros HF Ht j Hj; unfold upd.
  destruct (Z.eqb_spec j t) as [->|]; [rewrite bump_sgn, HF by exact Ht; reflexivity|].
  apply HF; exact Hj.
Qed.

Lemma index_to_pos_ex_eq (g k : Z) :
  Multi.index_to_pos_ex g k =
  chunk_cell_pos k (Multi.index_to_chunk_index g) (Multi.index_to_chunk_offset g).
Proof. reflexivity. Qed.

Lemma chunk_index_split (k g : Z) :
  1 <= k -> 0 <= g < k * k * k * CHUNK_CELL_COUNT ->
  0 <= Multi.index_to_chunk_index g < k * k * k /\
  0 <= Multi.index_to_chunk_offset g < CHUNK_CELL_COUNT.
Proof.
  intros Hk Hg; unfold Multi.index_to_chunk_index, Multi.index_to_chunk_offset.
  assert (Hpos : 0 < CHUNK_CELL_COUNT) by (unfold CHUNK_CELL_COUNT, CHUNK_SIZE; lia).
  split; [split; [apply Z.div_pos; lia | apply Z.div_lt_upper_bound; lia]|].
  apply Z.mod_pos_bound; exact Hpos.
Qed.

(** [LeddooMultiThreaded::update_neighbors] of one source, on the flat view:
    the wrapped patches of that source. *)
Lemma multi_update_neighbors_view (k : Z) (self : Multi.Chunks) (rule : Rule)
    (g : Z) (inc : bool) :
  1 <= k -> Multi.chunk_radius self = k -> 0 <= g < k * k * k * CHUNK_CELL_COUNT ->
  forall chs F, length chs = Z.to_nat (k * k * k) ->
  eq_on ((k * CHUNK_SIZE) * (k * CHUNK_SIZE) * (k * CHUNK_SIZE)) (multi_C k chs) F ->
  let chs' := Multi.update_neighbors self chs rule g inc in
  length chs' = length chs /\
  (forall j, multi_V k chs' j = multi_V k chs j) /\
  eq_on ((k * CHUNK_SIZE) * (k * CHUNK_SIZE) * (k * CHUNK_SIZE)) (multi_C k chs')
    (apply_ops F (signed_ops (k * CHUNK_SIZE) (get_neighbour_iter (neighbour_method rule))
                    [(chunk_index_flat k g, sgn inc)])).
Proof.
  intros Hk Hr Hg; destruct (chunk_index_split k g Hk Hg) as [Hc Ho].
  assert (Hb : Multi.bounds self = k * CHUNK_SIZE) by (unfold Multi.bounds; rewrite Hr; reflexivity).
  unfold Multi.update_neighbors; rewrite Hr, Hb.
  rewrite index_to_pos_ex_eq.
  unfold signed_ops; cbn [flat_map]; rewrite app_nil_r.
  induction (get_neighbour_iter (neighbour_method rule)) as [|d ds IH]; intros chs F Hl HF.
  - cbn [fold_left map]; split; [reflexivity | split; [reflexivity | exact HF]].
  - rewrite fold_left_cons, map_cons; cbv beta zeta; rewrite apply_ops_cons.
    set (q := wrap (vadd (chunk_cell_pos k (Multi.index_to_chunk_index g)
                            (Multi.index_to_chunk_offset g)) d) (k * CHUNK_SIZE)).
    assert (Hq : in_box (k * CHUNK_SIZE) q) by (apply wrap_box; unfold CHUNK_SIZE; lia).
    pose proof (multi_bump_pos k chs q inc Hk Hl Hq) as Hm; cbv zeta in Hm.
    destruct Hm as (L1 & V1 & C1).
    assert (Et : pos_to_index q (k * CHUNK_SIZE) =
                 nbidx (k * CHUNK_SIZE) (chunk_index_flat k g) d).
    { unfold nbidx, chunk_index_flat; rewrite index_to_pos_cci by auto; reflexivity. }
    rewrite Et in C1.
    match type of L1 with length ?x = _ => set (chs1 := x) in * end.
    destruct (IH chs1 (upd F (nbidx (k * CHUNK_SIZE) (chunk_index_flat k g) d)
                    (u8 (F (nbidx (k * CHUNK_SIZE) (chunk_index_flat k g) d) + sgn inc))))
      as (L2 & V2 & C2).
    + exact (eq_trans L1 Hl).
    + intros j Hj; rewrite C1 by exact Hj; revert j Hj; apply eq_on_upd_bump; [exact HF|].
      apply nbidx_range; unfold CHUNK_SIZE; lia.
    + split; [exact (eq_trans L2 L1) | split; [intros j; rewrite V2, V1; reflexivity | exact C2]].
Qed.

Lemma multi_update_neighbors_fold (k : Z) (self : Multi.Chunks) (rule : Rule) (inc : bool)
    (S : list Z) :
  1 <= k -> Multi.chunk_radius self = k ->
  (forall g, In g S -> 0 <= g < k * k * k * CHUNK_CELL_COUNT) ->
  forall chs F, length chs = Z.to_nat (k * k * k) ->
  eq_on ((k * CHUNK_SIZE) * (k * CHUNK_SIZE) * (k * CHUNK_SIZE)) (multi_C k chs) F ->
  let chs' := fold_left (fun chs index => Multi.update_neighbors self chs rule index inc) S chs in
  length chs' = length chs /\
  (forall j, multi_V k chs' j = multi_V k chs j) /\
  eq_on ((k * CHUNK_SIZE) * (k * CHUNK_SIZE) * (k * CHUNK_SIZE)) (multi_C k chs')
    (apply_ops F (signed_ops (k * CHUNK_SIZE) (get_neighbour_iter (neighbour_method rule))
                    (map (fun g => (chunk_index_flat k g, sgn inc)) S))).
Proof.
  intros Hk Hr; induction S as [|g S IH]; intros HS chs F Hl HF.
  - split; [reflexivity | split; [reflexivity | exact HF]].
  - cbn [fold_left]; rewrite map_cons.
    change ((chunk_index_flat k g, sgn inc) :: map (fun g => (chunk_index_flat k g, sgn inc)) S)
      with ([(chunk_index_flat k g, sgn inc)] ++ map (fun g => (chunk_index_flat k g, sgn inc)) S).
    rewrite signed_ops_app, apply_ops_app.
    destruct (multi_update_neighbors_view k self rule g inc Hk Hr (HS g (or_introl eq_refl))
                chs F Hl HF) as (L1 & V1 & C1).
    destruct (IH (fun g' Hg' => HS g' (or_intror Hg')) (Multi.update_neighbors self chs rule g inc)
                _ (eq_trans L1 Hl) C1) as (L2 & V2 & C2).
    split; [rewrite L2; exact L1 | split; [intros j; rewrite V2; apply V1 | exact C2]].
Qed.

(** ** Chunked engine: the value phase *)

Definition chunk_V (ch : Multi.Chunk) : Z -> Z := fun o => Multi.value (ch o).
Definition chunk_C (ch : Multi.Chunk) : Z -> Z := fun o => Multi.neighbours (ch o).

Lemma chunk_V_at (ch : Multi.Chunk) (o : Z) : Multi.value (ch o) = chunk_V ch o.
Proof. reflexivity. Qed.

Lemma chunk_C_at (ch : Multi.Chunk) (o : Z) : Multi.neighbours (ch o) = chunk_C ch o.
Proof. reflexivity. Qed.

(** [Chunk::is_border_pos(Chunk::index_to_pos(offset), 0)]. *)
Definition local_border (o : Z) : bool := chunk_is_border_pos (chunk_offset_to_pos o) 0.

(** What [update_values_chunk] returns for chunk [c] when no cell panics. *)
Definition chunk_result (rule : Rule) (c : Z) (ch : Multi.Chunk)
    : Multi.Chunk * list Z * list Z * list Z * list Z :=
  let offs := zrange 0 CHUNK_CELL_COUNT in
  let born := is_born rule (chunk_V ch) (chunk_C ch) in
  let dying := is_dying rule (chunk_V ch) (chunk_C ch) in
  (fun o => if mem o offs
            then Multi.mkCell (new_value rule (chunk_V ch o) (chunk_C ch o)) (chunk_C ch o)
            else ch o,
   filter (fun o => born o && negb (local_border o)) offs,
   map (fun o => c * CHUNK_CELL_COUNT + o) (filter (fun o => born o && local_border o) offs),
   filter (fun o => dying o && negb (local_border o)) offs,
   map (fun o => c * CHUNK_CELL_COUNT + o) (filter (fun o => dying o && local_border o) offs)).

Lemma multi_chunk_fold (rule : Rule) (c : Z) (ch0 : Multi.Chunk) (L : list Z) :
  NoDup L ->
  forall ch cs sp cd dt, (forall a, In a L -> ch a = ch0 a) ->
  fold_left (fun t a =>
      let '(ch, cs, sp, cd, dt) := t in
      let v := new_value rule (chunk_V ch0 a) (chunk_C ch0 a) in
      let chg := change_of rule (chunk_V ch0 a) (chunk_C ch0 a) in
      let border := chunk_is_border_pos (chunk_offset_to_pos a) 0 in
      let g := c * CHUNK_CELL_COUNT + a in
      (write_value chg ch a (Multi.mkCell v (Multi.neighbours (ch a))),
       if change_eqb chg Born && negb border then cs ++ [a] else cs,
       if change_eqb chg Born && border then sp ++ [g] else sp,
       if change_eqb chg Dying && negb border then cd ++ [a] else cd,
       if change_eqb chg Dying && border then dt ++ [g] else dt)) L (ch, cs, sp, cd, dt) =
  (fun o => if mem o L
            then Multi.mkCell (new_value rule (chunk_V ch0 o) (chunk_C ch0 o)) (chunk_C ch0 o)
            else ch o,
   cs ++ filter (fun o => is_born rule (chunk_V ch0) (chunk_C ch0) o && negb (local_border o)) L,
   sp ++ map (fun o => c * CHUNK_CELL_COUNT + o)
           (filter (fun o => is_born rule (chunk_V ch0) (chunk_C ch0) o && local_border o) L),
   cd ++ filter (fun o => is_dying rule (chunk_V ch0) (chunk_C ch0) o && negb (local_border o)) L,
   dt ++ map (fun o => c * CHUNK_CELL_COUNT + o)
           (filter (fun o => is_dying rule (chunk_V ch0) (chunk_C ch0) o && local_border o) L)).
Proof.
  induction L as [|a L IH]; intros Hnd ch cs sp cd dt Hch.
  - rewrite !app_nil_r; reflexivity.
  - inversion Hnd as [|? ? Ha Hnd']; subst.
    rewrite fold_left_cons; cbv beta iota zeta.
    rewrite IH; [| exact Hnd' |].
    + unfold is_born, is_dying, local_border; cbn [filter].
      f_equal; [f_equal; [f_equal; [f_equal|]|]|];
        try (destruct (_ && _); cbn [map]; rewrite <- ?app_assoc; reflexivity).
      extensionality o; unfold mem; cbn [existsb]; fold (mem o L).
      destruct (Z.eqb_spec o a) as [->|Hne]; cbn [orb].
      * destruct (mem a L) eqn:Hm; [apply mem_In in Hm; contradiction|].
        rewrite (Hch a (or_introl eq_refl)).
        destruct (change_of rule (chunk_V ch0 a) (chunk_C ch0 a)) eqn:Ech; cbn [write_value];
          try (unfold upd; rewrite Z.eqb_refl; reflexivity).
        rewrite (Hch a (or_introl eq_refl)), new_value_stay by exact Ech.
        unfold chunk_V, chunk_C; destruct (ch0 a); reflexivity.
      * destruct (mem o L); [reflexivity|].
        destruct (change_of _ _ _); cbn [write_value]; try reflexivity;
          unfold upd; rewrite (proj2 (Z.eqb_neq o a) Hne); reflexivity.
    + intros a' Ha'; assert (Hne : a' <> a) by (intros ->; contradiction).
      destruct (change_of _ _ _); cbn [write_value]; try (apply Hch; right; exact Ha');
        unfold upd; rewrite (proj2 (Z.eqb_neq a' a) Hne); apply Hch; right; exact Ha'.
Qed.

Lemma update_values_chunk_spec (ch : Multi.Chunk) (c : Z) (rule : Rule) :
  Multi.update_values_chunk ch c rule =
  if forallb (fun o => cell_ok rule (chunk_V ch o) (chunk_C ch o)) (zrange 0 CHUNK_CELL_COUNT)
  then Some (chunk_result rule c ch) else None.
Proof.
  unfold Multi.update_values_chunk.
  rewrite (fold_phaseA rule (fun t o => Multi.value (fst (fst (fst (fst t))) o))
             (fun t o => Multi.neighbours (fst (fst (fst (fst t))) o))
             (fun t a v chg =>
                let '(ch, cs, sp, cd, dt) := t in
                let border := chunk_is_border_pos (chunk_offset_to_pos a) 0 in
                let g := c * CHUNK_CELL_COUNT + a in
                (write_value chg ch a (Multi.mkCell v (Multi.neighbours (ch a))),
                 if change_eqb chg Born && negb border then cs ++ [a] else cs,
                 if change_eqb chg Born && border then sp ++ [g] else sp,
                 if change_eqb chg Dying && negb border then cd ++ [a] else cd,
                 if change_eqb chg Dying && border then dt ++ [g] else dt))).
  - match goal with
    | |- (if ?b1 then _ else _) = (if ?b2 then _ else _) => change b1 with b2
    end.
    destruct (forallb _ _); [|reflexivity].
    apply (f_equal Some).
    pose proof (multi_chunk_fold rule c ch (zrange 0 CHUNK_CELL_COUNT) (zrange_NoDup _ _)
                  ch [] [] [] [] (fun _ _ => eq_refl)) as H.
    rewrite !app_nil_l in H; unfold chunk_result; cbv zeta; rewrite <- H.
    apply fold_left_ext_on; intros a [[[[ch' cs] sp] cd] dt] _; reflexivity.
  - intros [[[[ch' cs] sp] cd] dt] a; reflexivity.
  - apply zrange_NoDup.
  - intros [[[[ch' cs] sp] cd] dt] a a' v chg _ _ Hne; cbn [fst].
    destruct chg; cbn [write_value]; try (split; reflexivity);
      unfold upd; rewrite (proj2 (Z.eqb_neq a' a) (not_eq_sym Hne)); split; reflexivity.
Qed.

(** The value tasks' results when no cell panics, chunk [c] after chunk. *)
Fixpoint chunk_results (rule : Rule) (c : Z) (chs : list Multi.Chunk)
    : list (Multi.Chunk * list Z * list Z * list Z * list Z) :=
  match chs with
  | [] => []
  | ch :: rest => chunk_result rule c ch :: chunk_results rule (c + 1) rest
  end.

Definition chunk_ok (rule : Rule) (ch : Multi.Chunk) : bool :=
  forallb (fun o => cell_ok rule (chunk_V ch o) (chunk_C ch o)) (zrange 0 CHUNK_CELL_COUNT).

Lemma value_tasks_cons (rule : Rule) (c : Z) (ch : Multi.Chunk) (rest : list Multi.Chunk) :
  Multi.value_tasks rule c (ch :: rest) =
  match Multi.update_values_chunk ch c rule, Multi.value_tasks rule (c + 1) rest with
  | Some r, Some rs => Some (r :: rs)
  | _, _ => None
  end.
Proof. reflexivity. Qed.

Lemma value_tasks_spec (rule : Rule) (chs : list Multi.Chunk) :
  forall c, Multi.value_tasks rule c chs =
  if forallb (chunk_ok rule) chs then Some (chunk_results rule c chs) else None.
Proof.
  induction chs as [|ch rest IH]; intros c; [reflexivity|].
  rewrite value_tasks_cons, update_values_chunk_spec, IH, forallb_cons.
  unfold chunk_ok at 2.
  destruct (forallb _ (zrange 0 CHUNK_CELL_COUNT)), (forallb (chunk_ok rule) rest); reflexivity.
Qed.

Lemma length_chunk_results (rule : Rule) (chs : list Multi.Chunk) :
  forall c, length (chunk_results rule c chs) = length chs.
Proof. induction chs as [|ch rest IH]; intros c; simpl; [|rewrite IH]; reflexivity. Qed.

Lemma nth_chunk_results (rule : Rule) (chs : list Multi.Chunk) (d : _) :
  forall c i, (i < length chs)%nat ->
  nth i (chunk_results rule c chs) d = chunk_result rule (c + Z.of_nat i) (nth i chs Multi.chunk_default).
Proof.
  induction chs as [|ch rest IH]; intros c i Hi; [simpl in Hi; lia|].
  destruct i as [|i]; cbn [chunk_results nth].
  - rewrite Z.add_0_r; reflexivity.
  - rewrite IH by (simpl in Hi; lia); f_equal; lia.
Qed.

(** ** Chunked engine: the parallel neighbour patches *)

(** The unwrapped in-chunk patches of [update_neighbors_chunk] for the
    sources [srcs]. *)
Definition local_ops (dirs : list IVec3) (srcs : list (Z * Z)) : list (Z * Z) :=
  flat_map (fun '(s, sg) =>
      map (fun d => (Multi.chunk_pos_to_index (vadd (chunk_offset_to_pos s) d), sg)) dirs) srcs.

Lemma chunk_update_neighbors_spec (ch : Multi.Chunk) (rule : Rule) (o : Z) (inc : bool) :
  chunk_V (Multi.update_neighbors_chunk ch rule o inc) = chunk_V ch /\
  chunk_C (Multi.update_neighbors_chunk ch rule o inc) =
  apply_ops (chunk_C ch) (local_ops (get_neighbour_iter (neighbour_method rule)) [(o, sgn inc)]).
Proof.
  unfold Multi.update_neighbors_chunk, local_ops; cbn [flat_map]; rewrite app_nil_r.
  revert ch; induction (get_neighbour_iter (neighbour_method rule)) as [|d ds IH]; intros ch;
    [split; reflexivity|].
  rewrite fold_left_cons, map_cons, apply_ops_cons; cbv beta zeta.
  set (i := Multi.chunk_pos_to_index (vadd (chunk_offset_to_pos o) d)).
  destruct (IH (upd ch i (Multi.bump_cell inc (ch i)))) as [A B]; rewrite A, B; split.
  - extensionality j; unfold chunk_V, upd; destruct (j =? i) eqn:E; [|reflexivity].
    apply Z.eqb_eq in E; subst j; reflexivity.
  - f_equal; extensionality j; unfold chunk_C, upd; destruct (j =? i); [|reflexivity].
    cbn [Multi.bump_cell Multi.neighbours]; rewrite bump_sgn; reflexivity.
Qed.

Lemma chunk_update_neighbors_fold (rule : Rule) (inc : bool) (S : list Z) :
  forall ch,
  let ch' := fold_left (fun ch o => Multi.update_neighbors_chunk ch rule o inc) S ch in
  chunk_V ch' = chunk_V ch /\
  chunk_C ch' = apply_ops (chunk_C ch) (local_ops (get_neighbour_iter (neighbour_method rule))
                                          (map (fun o => (o, sgn inc)) S)).
Proof.
  induction S as [|o S IH]; intros ch; [split; reflexivity|].
  cbv zeta; rewrite fold_left_cons, map_cons.
  destruct (chunk_update_neighbors_spec ch rule o inc) as [A B].
  destruct (IH (Multi.update_neighbors_chunk ch rule o inc)) as [A' B'].
  split; [rewrite A', A; reflexivity|].
  rewrite B', B, <- apply_ops_app; unfold local_ops; rewrite <- flat_map_app; reflexivity.
Qed.

Lemma chunk_task_spec (rule : Rule) (ch : Multi.Chunk) (cs sp cd dt : list Z) :
  chunk_V (Multi.chunk_task rule (ch, cs, sp, cd, dt)) = chunk_V ch /\
  chunk_C (Multi.chunk_task rule (ch, cs, sp, cd, dt)) =
  apply_ops (chunk_C ch) (local_ops (get_neighbour_iter (neighbour_method rule))
                            (map (fun o => (o, 1)) cs ++ map (fun o => (o, -1)) cd)).
Proof.
  unfold Multi.chunk_task.
  destruct (chunk_update_neighbors_fold rule true cs ch) as [A B].
  destruct (chunk_update_neighbors_fold rule false cd
              (fold_left (fun ch o => Multi.update_neighbors_chunk ch rule o true) cs ch))
    as [A' B'].
  split; [rewrite A', A; reflexivity|].
  rewrite B', B, <- apply_ops_app; unfold local_ops; rewrite <- flat_map_app; reflexivity.
Qed.

Lemma border0_false_local (p : IVec3) :
  chunk_is_border_pos p 0 = false ->
  1 <= px p <= 30 /\ 1 <= py p <= 30 /\ 1 <= pz p <= 30.
Proof.
  unfold chunk_is_border_pos, CHUNK_SIZE.
  rewrite !orb_false_iff, !Z.leb_gt; lia.
Qed.

(** A source off the chunk faces patches cells of its own chunk, where the
    wrapped patches land. *)
Lemma local_interior_step (k c s : Z) (m : NeighbourMethod) (d : IVec3) :
  1 <= k -> 0 <= c < k * k * k -> 0 <= s < CHUNK_CELL_COUNT ->
  local_border s = false -> In d (get_neighbour_iter m) ->
  let t := Multi.chunk_pos_to_index (vadd (chunk_offset_to_pos s) d) in
  0 <= t < CHUNK_CELL_COUNT /\
  chunk_cell_index k c t = nbidx (k * CHUNK_SIZE) (chunk_cell_index k c s) d.
Proof.
  intros Hk Hc Hs Hb Hd t.
  assert (H32 : 0 < CHUNK_SIZE) by (unfold CHUNK_SIZE; lia).
  pose proof (index_to_pos_box s CHUNK_SIZE H32 Hs) as Bp.
  pose proof (index_to_pos_box c k ltac:(lia) Hc) as Bc.
  unfold local_border in Hb; apply border0_false_local in Hb; apply dirs_unit in Hd.
  unfold chunk_offset_to_pos in *.
  assert (Bq : in_box CHUNK_SIZE (vadd (index_to_pos s CHUNK_SIZE) d)).
  { unfold in_box in *; unfold CHUNK_SIZE in *.
    destruct (index_to_pos s 32) as [x y z], d as [dx dy dz].
    unfold vadd in *; cbn [px py pz] in *; lia. }
  split; [apply pos_to_index_range; exact Bq|].
  unfold nbidx; rewrite index_to_pos_cci by auto.
  unfold chunk_cell_index, chunk_cell_pos, t, Multi.chunk_pos_to_index, chunk_offset_to_pos.
  rewrite pos_index_roundtrip by auto.
  rewrite wrap_id; [f_equal; unfold vadd, vscale; simpl; f_equal; ring|].
  unfold in_box in *; unfold CHUNK_SIZE in *.
  destruct (index_to_pos c k) as [cx cy cz], (index_to_pos s 32) as [x y z], d as [dx dy dz].
  unfold vadd, vscale in *; cbn [px py pz] in *; nia.
Qed.

(** ** Lists by index *)

Lemma prange_seq (lo : Z) (p : positive) :
  forall s, prange (lo + Z.of_nat s) p = map (fun i => lo + Z.of_nat i) (seq s (Pos.to_nat p)).
Proof.
  induction p as [q IH|q IH|]; intros s; simpl prange.
  - rewrite Pos2Nat.inj_xI; cbn [seq map].
    replace (2 * Pos.to_nat q)%nat with (Pos.to_nat q + Pos.to_nat q)%nat by lia.
    rewrite seq_app, map_app, <- !IH; f_equal; f_equal; f_equal; lia.
  - rewrite Pos2Nat.inj_xO.
    replace (2 * Pos.to_nat q)%nat with (Pos.to_nat q + Pos.to_nat q)%nat by lia.
    rewrite seq_app, map_app, <- !IH; f_equal; f_equal; lia.
  - reflexivity.
Qed.

Lemma zrange_seq (m : nat) : zrange 0 (Z.of_nat m) = map Z.of_nat (seq 0 m).
Proof.
  unfold zrange; rewrite Z.sub_0_r; destruct m as [|m]; [reflexivity|].
  change (prange (0 + Z.of_nat 0) (Pos.of_succ_nat m) = map Z.of_nat (seq 0 (S m))).
  rewrite prange_seq, SuccNat2Pos.id_succ; apply map_ext; intros i; lia.
Qed.

Lemma list_by_index {A : Type} (l : list A) (d : A) :
  map (fun i => nth i l d) (seq 0 (length l)) = l.
Proof.
  induction l as [|a l IH]; [reflexivity|].
  cbn [length seq map nth]; f_equal.
  rewrite <- seq_shift, map_map; exact IH.
Qed.

Lemma list_zrange {A : Type} (l : list A) (d : A) :
  l = map (fun c => nth (Z.to_nat c) l d) (zrange 0 (Z.of_nat (length l))).
Proof.
  rewrite zrange_seq, map_map.
  rewrite <- (list_by_index l d) at 1; apply map_ext; intros i; rewrite Nat2Z.id; reflexivity.
Qed.

Lemma chunk_results_index (rule : Rule) (chs : list Multi.Chunk) :
  forall c0, chunk_results rule c0 chs =
  map (fun i => chunk_result rule (c0 + Z.of_nat i) (nth i chs Multi.chunk_default))
    (seq 0 (length chs)).
Proof.
  induction chs as [|ch rest IH]; intros c0; [reflexivity|].
  cbn [chunk_results length seq map nth]; rewrite Z.add_0_r; f_equal.
  rewrite IH, <- seq_shift, map_map; apply map_ext; intros i.
  cbn [nth]; f_equal; lia.
Qed.

Lemma chunk_results_zrange (rule : Rule) (chs : list Multi.Chunk) :
  chunk_results rule 0 chs =
  map (fun c => chunk_result rule c (nth (Z.to_nat c) chs Multi.chunk_default))
    (zrange 0 (Z.of_nat (length chs))).
Proof.
  rewrite zrange_seq, map_map, chunk_results_index; apply map_ext; intros i.
  rewrite Nat2Z.id; reflexivity.
Qed.

(** The chunks' panic checks are the grid's. *)
Lemma multi_forallb (k : Z) (rule : Rule) (chs : list Multi.Chunk) :
  1 <= k -> length chs = Z.to_nat (k * k * k) ->
  forallb (chunk_ok rule) chs =
  forallb (fun j => cell_ok rule (multi_V k chs j) (multi_C k chs j))
    (zrange 0 ((k * CHUNK_SIZE) * (k * CHUNK_SIZE) * (k * CHUNK_SIZE))).
Proof.
  intros Hk Hl.
  transitivity (forallb (chunk_ok rule)
     (map (fun c => nth (Z.to_nat c) chs Multi.chunk_default) (zrange 0 (Z.of_nat (length chs)))));
    [f_equal; apply list_zrange|].
  rewrite forallb_map_fun, Hl, Z2Nat.id by lia.
  rewrite <- (forallb_perm _ _ _ (all_chunk_cells_perm k ltac:(lia))).
  unfold all_chunk_cells; rewrite forallb_flat_map.
  apply forallb_ext_on; intros c Hc; apply zrange_In in Hc.
  unfold chunk_ok; rewrite chunk_cells_forallb; apply forallb_ext_on; intros o Ho.
  apply offsets_In in Ho; unfold multi_V, multi_C; rewrite mcell_flat_cci by auto; reflexivity.
Qed.

(** ** Chunked engine: the parallel phase on the grid *)

(** The interior (chunk-local) spawns and deaths of a chunk. *)
Definition int_born (rule : Rule) (ch : Multi.Chunk) : list Z :=
  filter (fun o => is_born rule (chunk_V ch) (chunk_C ch) o && negb (local_border o))
    (zrange 0 CHUNK_CELL_COUNT).
Definition int_dying (rule : Rule) (ch : Multi.Chunk) : list Z :=
  filter (fun o => is_dying rule (chunk_V ch) (chunk_C ch) o && negb (local_border o))
    (zrange 0 CHUNK_CELL_COUNT).

(** Chunk [c]'s sources [cs] (spawns) and [cd] (deaths) as grid indices. *)
Definition int_srcs (k c : Z) (cs cd : list Z) : list (Z * Z) :=
  map (fun o => (chunk_cell_index k c o, 1)) cs ++ map (fun o => (chunk_cell_index k c o, -1)) cd.

Lemma local_ops_global (k c : Z) (m : NeighbourMethod) (srcs : list (Z * Z)) :
  1 <= k -> 0 <= c < k * k * k ->
  (forall s sg, In (s, sg) srcs -> 0 <= s < CHUNK_CELL_COUNT /\ local_border s = false) ->
  map (fun '(t, d) => (chunk_cell_index k c t, d)) (local_ops (get_neighbour_iter m) srcs) =
  signed_ops (k * CHUNK_SIZE) (get_neighbour_iter m)
    (map (fun '(s, sg) => (chunk_cell_index k c s, sg)) srcs).
Proof.
  intros Hk Hc; induction srcs as [|[s sg] srcs IH]; intros Hs; [reflexivity|].
  unfold local_ops, signed_ops in *.
  rewrite flat_map_cons, map_cons, flat_map_cons, map_app, IH
    by (intros s' sg' H; apply (Hs s' sg'); right; exact H).
  f_equal; rewrite map_map; apply map_ext_in; intros d Hd.
  destruct (Hs s sg (or_introl eq_refl)) as [Hs1 Hs2].
  destruct (local_interior_step k c s m d Hk Hc Hs1 Hs2 Hd) as [_ E]; rewrite E; reflexivity.
Qed.

Lemma local_ops_range (m : NeighbourMethod) (srcs : list (Z * Z)) :
  (forall s sg, In (s, sg) srcs -> 0 <= s < CHUNK_CELL_COUNT /\ local_border s = false) ->
  forall op, In op (local_ops (get_neighbour_iter m) srcs) -> 0 <= fst op < CHUNK_CELL_COUNT.
Proof.
  intros Hs op Hop; unfold local_ops in Hop; apply in_flat_map in Hop as ([s sg] & Hin & Hop).
  apply in_map_iff in Hop as (d & <- & Hd); cbn [fst].
  destruct (Hs s sg Hin) as [Hs1 Hs2].
  exact (proj1 (local_interior_step 1 0 s m d ltac:(lia) ltac:(lia) Hs1 Hs2 Hd)).
Qed.

(** A chunk's parallel task, read on the grid. *)
Lemma chunk_local_global (k c : Z) (m : NeighbourMethod) (ch : Multi.Chunk) (F : Z -> Z)
    (cs cd : list Z) (o : Z) :
  1 <= k -> 0 <= c < k * k * k -> 0 <= o < CHUNK_CELL_COUNT ->
  (forall o', 0 <= o' < CHUNK_CELL_COUNT -> chunk_C ch o' = F (chunk_cell_index k c o')) ->
  (forall s, In s (cs ++ cd) -> 0 <= s < CHUNK_CELL_COUNT /\ local_border s = false) ->
  apply_ops (chunk_C ch) (local_ops (get_neighbour_iter m)
                            (map (fun o => (o, 1)) cs ++ map (fun o => (o, -1)) cd)) o =
  apply_ops F (signed_ops (k * CHUNK_SIZE) (get_neighbour_iter m) (int_srcs k c cs cd))
    (chunk_cell_index k c o).
Proof.
  intros Hk Hc Ho HF Hs.
  assert (Hs' : forall s sg, In (s, sg) (map (fun o => (o, 1)) cs ++ map (fun o => (o, -1)) cd) ->
                  0 <= s < CHUNK_CELL_COUNT /\ local_border s = false).
  { intros s sg H; apply Hs; apply in_app_or in H as [H|H]; apply in_map_iff in H as (x & E & Hx);
      inversion E; subst; apply in_or_app; auto. }
  rewrite (apply_ops_eq_on (chunk_C ch) (fun o => F (chunk_cell_index k c o)) _ CHUNK_CELL_COUNT HF o Ho).
  rewrite (apply_ops_transport (chunk_cell_index k c) (fun o => 0 <= o < CHUNK_CELL_COUNT) F).
  - rewrite local_ops_global by assumption.
    unfold int_srcs; rewrite map_app, !map_map; reflexivity.
  - intros a a' Ha Ha' E; exact (proj2 (chunk_cell_index_inj k c a c a' ltac:(lia) Hc Ha Hc Ha' E)).
  - exact Ho.
  - exact (local_ops_range m _ Hs').
Qed.

Lemma filter_flat_map {A B : Type} (p : B -> bool) (f : A -> list B) (l : list A) :
  filter p (flat_map f l) = flat_map (fun x => filter p (f x)) l.
Proof. induction l as [|a l IH]; [reflexivity|]; rewrite !flat_map_cons, filter_app, IH; reflexivity. Qed.

Lemma flat_map_nil {A B : Type} (f : A -> list B) (l : list A) :
  (forall x, In x l -> f x = []) -> flat_map f l = [].
Proof.
  induction l as [|a l IH]; intros H; [reflexivity|].
  rewrite flat_map_cons, H, IH; [reflexivity| |left; reflexivity]; intros x Hx; apply H; right; exact Hx.
Qed.

Lemma flat_map_single {B : Type} (f : Z -> list B) (l : list Z) (c : Z) :
  NoDup l -> In c l -> (forall x, In x l -> x <> c -> f x = []) -> flat_map f l = f c.
Proof.
  induction l as [|a l IH]; intros Hnd Hc H; [destruct Hc|].
  apply NoDup_cons_iff in Hnd as [Ha Hnd]; rewrite flat_map_cons.
  destruct (Z.eq_dec a c) as [->|Hne].
  - rewrite flat_map_nil, app_nil_r; [reflexivity|].
    intros x Hx; apply H; [right; exact Hx | intros ->; contradiction].
  - rewrite H by (first [left; reflexivity | exact Hne]); cbn [app].
    destruct Hc as [Hc|Hc]; [contradiction|].
    apply IH; auto; intros x Hx; apply H; right; exact Hx.
Qed.

Lemma filter_none {A : Type} (p : A -> bool) (l : list A) :
  (forall x, In x l -> p x = false) -> filter p l = [].
Proof.
  induction l as [|a l IH]; intros H; [reflexivity|].
  cbn [filter]; rewrite H by (left; reflexivity); apply IH; intros x Hx; apply H; right; exact Hx.
Qed.

(** Only chunk [c]'s own patches reach a cell of chunk [c]. *)
Lemma apply_ops_chunk_only (k c o : Z) (m : NeighbourMethod) (F : Z -> Z)
    (S : Z -> list (Z * Z)) :
  1 <= k -> 0 <= c < k * k * k -> 0 <= o < CHUNK_CELL_COUNT ->
  (forall c', 0 <= c' < k * k * k -> forall op,
     In op (signed_ops (k * CHUNK_SIZE) (get_neighbour_iter m) (S c')) ->
     exists t, 0 <= t < CHUNK_CELL_COUNT /\ fst op = chunk_cell_index k c' t) ->
  apply_ops F (signed_ops (k * CHUNK_SIZE) (get_neighbour_iter m) (flat_map S (zrange 0 (k * k * k))))
    (chunk_cell_index k c o) =
  apply_ops F (signed_ops (k * CHUNK_SIZE) (get_neighbour_iter m) (S c)) (chunk_cell_index k c o).
Proof.
  intros Hk Hc Ho HS.
  rewrite apply_ops_filter, (apply_ops_filter F (signed_ops _ _ (S c))); f_equal.
  unfold signed_ops at 1; rewrite flat_map_flat_map, filter_flat_map.
  apply (flat_map_single
           (fun x => filter (fun op => fst op =? chunk_cell_index k c o)
                       (signed_ops (k * CHUNK_SIZE) (get_neighbour_iter m) (S x)))).
  - apply zrange_NoDup.
  - apply zrange_In; exact Hc.
  - intros x Hx Hne; apply zrange_In in Hx; apply filter_none; intros op Hop.
    destruct (HS x Hx op Hop) as (t & Ht & ->); apply Z.eqb_neq; intros E.
    apply Hne; exact (proj1 (chunk_cell_index_inj k x t c o ltac:(lia) Hx Ht Hc Ho E)).
Qed.

Lemma chunk_task_result (rule : Rule) (c : Z) (ch : Multi.Chunk) :
  chunk_C (Multi.chunk_task rule (chunk_result rule c ch)) =
  apply_ops (chunk_C ch) (local_ops (get_neighbour_iter (neighbour_method rule))
     (map (fun o => (o, 1)) (int_born rule ch) ++ map (fun o => (o, -1)) (int_dying rule ch))) /\
  (forall o, 0 <= o < CHUNK_CELL_COUNT ->
   chunk_V (Multi.chunk_task rule (chunk_result rule c ch)) o =
   new_value rule (chunk_V ch o) (chunk_C ch o)).
Proof.
  unfold chunk_result; cbv zeta.
  split.
  - match goal with |- context [Multi.chunk_task rule (?a, ?b, ?x, ?d, ?e)] =>
      refine (eq_trans (proj2 (chunk_task_spec rule a b x d e)) _) end.
    apply (f_equal2 apply_ops); [|unfold int_born, int_dying; reflexivity].
    extensionality o; unfold chunk_C; destruct (mem o _); reflexivity.
  - intros o Ho.
    match goal with |- context [Multi.chunk_task rule (?a, ?b, ?x, ?d, ?e)] =>
      refine (eq_trans (f_equal (fun f => f o) (proj1 (chunk_task_spec rule a b x d e))) _) end.
    unfold chunk_V at 1; cbv beta.
    rewrite (proj2 (mem_In o _) (proj2 (zrange_In 0 CHUNK_CELL_COUNT o) Ho)); reflexivity.
Qed.

Lemma int_lists_interior (rule : Rule) (ch : Multi.Chunk) (s : Z) :
  In s (int_born rule ch ++ int_dying rule ch) ->
  0 <= s < CHUNK_CELL_COUNT /\ local_border s = false.
Proof.
  unfold int_born, int_dying; intros H.
  apply in_app_or in H as [H|H]; apply filter_In in H as [H1 H2];
    apply andb_prop in H2 as [_ H2]; apply negb_true_iff in H2; split; auto; apply zrange_In; exact H1.
Qed.

Lemma int_srcs_targets (k c : Z) (m : NeighbourMethod) (cs cd : list Z) :
  1 <= k -> 0 <= c < k * k * k ->
  (forall s, In s (cs ++ cd) -> 0 <= s < CHUNK_CELL_COUNT /\ local_border s = false) ->
  forall op, In op (signed_ops (k * CHUNK_SIZE) (get_neighbour_iter m) (int_srcs k c cs cd)) ->
  exists t, 0 <= t < CHUNK_CELL_COUNT /\ fst op = chunk_cell_index k c t.
Proof.
  intros Hk Hc Hs op Hop.
  unfold signed_ops in Hop; apply in_flat_map in Hop as ([g sg] & Hg & Hop).
  apply in_map_iff in Hop as (d & <- & Hd); cbn [fst].
  assert (Hg' : exists s, In s (cs ++ cd) /\ g = chunk_cell_index k c s).
  { unfold int_srcs in Hg; apply in_app_or in Hg as [Hg|Hg]; apply in_map_iff in Hg as (s & E & Hs');
      inversion E; subst; exists s; split; auto; apply in_or_app; auto. }
  destruct Hg' as (s & Hs' & ->); destruct (Hs s Hs') as [Hs1 Hs2].
  destruct (local_interior_step k c s m d Hk Hc Hs1 Hs2 Hd) as [Ht E].
  eexists; split; [exact Ht | symmetry; exact E].
Qed.

(** The chunked engine after its value tasks and parallel neighbour tasks. *)
Lemma multi_phaseA (k : Z) (rule : Rule) (chs : list Multi.Chunk) :
  1 <= k -> length chs = Z.to_nat (k * k * k) ->
  let chs1 := map (Multi.chunk_task rule) (chunk_results rule 0 chs) in
  length chs1 = length chs /\
  (forall j, 0 <= j < (k * CHUNK_SIZE) * (k * CHUNK_SIZE) * (k * CHUNK_SIZE) ->
     multi_V k chs1 j = new_value rule (multi_V k chs j) (multi_C k chs j)) /\
  eq_on ((k * CHUNK_SIZE) * (k * CHUNK_SIZE) * (k * CHUNK_SIZE)) (multi_C k chs1)
    (apply_ops (multi_C k chs)
       (signed_ops (k * CHUNK_SIZE) (get_neighbour_iter (neighbour_method rule))
          (flat_map (fun c => int_srcs k c (int_born rule (nth (Z.to_nat c) chs Multi.chunk_default))
                                           (int_dying rule (nth (Z.to_nat c) chs Multi.chunk_default)))
             (zrange 0 (k * k * k))))).
Proof.
  intros Hk Hl chs1.
  assert (Hl1 : length chs1 = length chs)
    by (unfold chs1; rewrite length_map, length_chunk_results; reflexivity).
  assert (Hnth : forall c, 0 <= c < k * k * k ->
            nth (Z.to_nat c) chs1 Multi.chunk_default =
            Multi.chunk_task rule (chunk_result rule c (nth (Z.to_nat c) chs Multi.chunk_default))).
  { intros c Hc; unfold chs1.
    rewrite (nth_indep _ _ (Multi.chunk_task rule (chunk_result rule 0 Multi.chunk_default)))
      by (rewrite length_map, length_chunk_results; lia).
    rewrite map_nth, nth_chunk_results by lia.
    replace (0 + Z.of_nat (Z.to_nat c)) with c by lia; reflexivity. }
  split; [exact Hl1|]; split.
  - intros j Hj; destruct (cci_of_flat k j Hk Hj) as (Hc & Ho & Ej); revert Ej.
    set (c := pos_chunk k _); set (o := pos_offset _); intros Ej; rewrite <- Ej.
    unfold multi_V, multi_C; rewrite !mcell_flat_cci by auto; unfold mcell; rewrite Hnth by auto.
    rewrite !chunk_V_at, chunk_C_at; exact (proj2 (chunk_task_result rule c _) o Ho).
  - intros j Hj; destruct (cci_of_flat k j Hk Hj) as (Hc & Ho & Ej); revert Ej.
    set (c := pos_chunk k _); set (o := pos_offset _); intros Ej; rewrite <- Ej.
    unfold multi_C at 1; rewrite mcell_flat_cci by auto; unfold mcell; rewrite Hnth by auto.
    set (ch := nth (Z.to_nat c) chs Multi.chunk_default).
    rewrite chunk_C_at, (proj1 (chunk_task_result rule c ch)).
    rewrite (chunk_local_global k c _ ch (multi_C k chs)); auto.
    + symmetry; apply (apply_ops_chunk_only k c o _ _
         (fun c => int_srcs k c (int_born rule (nth (Z.to_nat c) chs Multi.chunk_default))
                                (int_dying rule (nth (Z.to_nat c) chs Multi.chunk_default)))); auto.
      intros c' Hc'; apply int_srcs_targets; auto; apply int_lists_interior.
    + intros o' Ho'; unfold multi_C; rewrite mcell_flat_cci by auto; reflexivity.
    + apply int_lists_interior.
Qed.

(** ** Chunked engine: the sources of the whole update *)

Lemma filter_split_perm {A : Type} (p q : A -> bool) (l : list A) :
  Permutation (filter (fun x => p x && negb (q x)) l ++ filter (fun x => p x && q x) l)
    (filter p l).
Proof.
  induction l as [|a l IH]; [reflexivity|]; cbn [filter].
  destruct (p a), (q a); cbn [andb negb].
  - rewrite <- Permutation_middle; constructor; exact IH.
  - constructor; exact IH.
  - exact IH.
  - exact IH.
Qed.

Lemma split4_perm {A B : Type} (f g : A -> B) (p d q : A -> bool) (l : list A) :
  Permutation
    ((map f (filter (fun x => p x && negb (q x)) l) ++ map g (filter (fun x => d x && negb (q x)) l)) ++
     map f (filter (fun x => p x && q x) l) ++ map g (filter (fun x => d x && q x) l))
    (map f (filter p l) ++ map g (filter d l)).
Proof.
  transitivity ((map f (filter (fun x => p x && negb (q x)) l) ++ map f (filter (fun x => p x && q x) l)) ++
                (map g (filter (fun x => d x && negb (q x)) l) ++ map g (filter (fun x => d x && q x) l))).
  - rewrite <- !app_assoc; apply Permutation_app_head.
    rewrite !app_assoc; apply Permutation_app_tail, Permutation_app_comm.
  - apply Permutation_app; rewrite <- map_app; apply Permutation_map, filter_split_perm.
Qed.

Lemma map_flat_map {A B C : Type} (h : B -> C) (f : A -> list B) (l : list A) :
  map h (flat_map f l) = flat_map (fun x => map h (f x)) l.
Proof. induction l as [|a l IH]; [reflexivity|]; rewrite !flat_map_cons, map_app, IH; reflexivity. Qed.

Lemma chunk_index_flat_split (k c o : Z) :
  0 <= c -> 0 <= o < CHUNK_CELL_COUNT ->
  chunk_index_flat k (c * CHUNK_CELL_COUNT + o) = chunk_cell_index k c o.
Proof.
  intros Hc Ho; unfold chunk_index_flat, Multi.index_to_chunk_index, Multi.index_to_chunk_offset.
  assert (H : CHUNK_CELL_COUNT <> 0) by (unfold CHUNK_CELL_COUNT, CHUNK_SIZE; lia).
  rewrite Z.add_comm, Z_div_plus_full, Z_mod_plus_full, Z.div_small, Z.mod_small by auto.
  reflexivity.
Qed.

Lemma border_spawns_result (rule : Rule) (c : Z) (ch : Multi.Chunk) :
  Multi.border_spawns (chunk_result rule c ch) =
  map (fun o => c * CHUNK_CELL_COUNT + o)
    (filter (fun o => is_born rule (chunk_V ch) (chunk_C ch) o && local_border o)
       (zrange 0 CHUNK_CELL_COUNT)).
Proof. reflexivity. Qed.

Lemma border_deaths_result (rule : Rule) (c : Z) (ch : Multi.Chunk) :
  Multi.border_deaths (chunk_result rule c ch) =
  map (fun o => c * CHUNK_CELL_COUNT + o)
    (filter (fun o => is_dying rule (chunk_V ch) (chunk_C ch) o && local_border o)
       (zrange 0 CHUNK_CELL_COUNT)).
Proof. reflexivity. Qed.

Lemma filter_map_comm {A B : Type} (p : B -> bool) (f : A -> B) (l : list A) :
  filter p (map f l) = map f (filter (fun x => p (f x)) l).
Proof. induction l as [|a l IH]; [reflexivity|]; cbn [map filter]; destruct (p (f a)); rewrite IH; reflexivity. Qed.

(** The interior and the border sources of all chunks are the grid's sources. *)
Lemma multi_srcs_perm (k : Z) (rule : Rule) (chs : list Multi.Chunk) :
  1 <= k -> length chs = Z.to_nat (k * k * k) ->
  Permutation
    (flat_map (fun c => int_srcs k c (int_born rule (nth (Z.to_nat c) chs Multi.chunk_default))
                                     (int_dying rule (nth (Z.to_nat c) chs Multi.chunk_default)))
       (zrange 0 (k * k * k)) ++
     map (fun g => (chunk_index_flat k g, 1)) (flat_map Multi.border_spawns (chunk_results rule 0 chs)) ++
     map (fun g => (chunk_index_flat k g, -1)) (flat_map Multi.border_deaths (chunk_results rule 0 chs)))
    (flat_map (fun j => src_of j (change_of rule (multi_V k chs j) (multi_C k chs j)))
       (zrange 0 ((k * CHUNK_SIZE) * (k * CHUNK_SIZE) * (k * CHUNK_SIZE)))).
Proof.
  intros Hk Hl.
  rewrite chunk_results_zrange, Hl, Z2Nat.id by lia.
  rewrite !flat_map_map, !map_flat_map.
  etransitivity; [apply Permutation_app_head, flat_map_app_perm|].
  etransitivity; [apply flat_map_app_perm|].
  etransitivity; [|apply (atomic_srcs_perm k rule (multi_V k chs) (multi_C k chs)); lia].
  rewrite flat_map_map; apply Permutation_flat_map_pointwise; intros c Hc; apply zrange_In in Hc.
  cbv beta; set (ch := nth (Z.to_nat c) chs Multi.chunk_default).
  rewrite border_spawns_result, border_deaths_result, !map_map.
  unfold int_srcs, int_born, int_dying, signed_srcs, chunk_cells; cbn [fst snd].
  rewrite !filter_map_comm, !map_map.
  assert (Hb : forall o, In o (zrange 0 CHUNK_CELL_COUNT) ->
     is_born rule (multi_V k chs) (multi_C k chs) (chunk_cell_index k c o) =
     is_born rule (chunk_V ch) (chunk_C ch) o).
  { intros o Ho; apply offsets_In in Ho; unfold is_born, multi_V, multi_C.
    rewrite mcell_flat_cci by auto; reflexivity. }
  assert (Hd : forall o, In o (zrange 0 CHUNK_CELL_COUNT) ->
     is_dying rule (multi_V k chs) (multi_C k chs) (chunk_cell_index k c o) =
     is_dying rule (chunk_V ch) (chunk_C ch) o).
  { intros o Ho; apply offsets_In in Ho; unfold is_dying, multi_V, multi_C.
    rewrite mcell_flat_cci by auto; reflexivity. }
  rewrite (filter_ext_in _ _ _ Hb), (filter_ext_in _ _ _ Hd).
  assert (Hf : forall (sg : Z) (P : Z -> bool),
     map (fun o => (chunk_index_flat k (c * CHUNK_CELL_COUNT + o), sg))
       (filter P (zrange 0 CHUNK_CELL_COUNT)) =
     map (fun o => (chunk_cell_index k c o, sg)) (filter P (zrange 0 CHUNK_CELL_COUNT))).
  { intros sg P; apply map_ext_in; intros o Ho; apply filter_In in Ho as [Ho _].
    apply offsets_In in Ho; rewrite chunk_index_flat_split by lia; reflexivity. }
  rewrite !Hf.
  apply (split4_perm (fun o => (chunk_cell_index k c o, 1)) (fun o => (chunk_cell_index k c o, -1))
           (is_born rule (chunk_V ch) (chunk_C ch)) (is_dying rule (chunk_V ch) (chunk_C ch))
           local_border).
Qed.

Lemma border_srcs_range (k : Z) (rule : Rule) (chs : list Multi.Chunk) :
  length chs = Z.to_nat (k * k * k) -> 1 <= k ->
  (forall g, In g (flat_map Multi.border_spawns (chunk_results rule 0 chs)) ->
     0 <= g < k * k * k * CHUNK_CELL_COUNT) /\
  (forall g, In g (flat_map Multi.border_deaths (chunk_results rule 0 chs)) ->
     0 <= g < k * k * k * CHUNK_CELL_COUNT).
Proof.
  intros Hl Hk; rewrite chunk_results_zrange, Hl, Z2Nat.id by lia.
  split; intros g Hg; apply in_flat_map in Hg as (r & Hr & Hg);
    apply in_map_iff in Hr as (c & <- & Hc); apply zrange_In in Hc;
    [rewrite border_spawns_result in Hg | rewrite border_deaths_result in Hg];
    apply in_map_iff in Hg as (o & <- & Ho); apply filter_In in Ho as [Ho _];
    apply offsets_In in Ho; unfold CHUNK_CELL_COUNT, CHUNK_SIZE in *; nia.
Qed.

(** [LeddooMultiThreaded::update] on a grid of [k^3] chunks computes [ref_step]. *)
Lemma multi_update_ref (st : Multi.Chunks) (rule : Rule) (k : Z) :
  1 <= k -> Multi.chunk_radius st = k -> length (Multi.chunks st) = Z.to_nat (k * k * k) ->
  match Multi.update st rule,
        ref_step rule (k * CHUNK_SIZE) (multi_V k (Multi.chunks st)) (multi_C k (Multi.chunks st)) with
  | Some st', Some (V', C') =>
      eq_on ((k * CHUNK_SIZE) * (k * CHUNK_SIZE) * (k * CHUNK_SIZE)) (multi_V k (Multi.chunks st')) V' /\
      eq_on ((k * CHUNK_SIZE) * (k * CHUNK_SIZE) * (k * CHUNK_SIZE)) (multi_C k (Multi.chunks st')) C' /\
      Multi.chunk_radius st' = k /\ Multi.chunk_count st' = Multi.chunk_count st /\
      length (Multi.chunks st') = Z.to_nat (k * k * k)
  | None, None => True
  | _, _ => False
  end.
Proof.
  intros Hk Hr Hl; unfold Multi.update.
  rewrite value_tasks_spec, (multi_forallb k) by auto; unfold ref_step.
  destruct (forallb _ _); [|exact I]; cbv zeta.
  set (chs := Multi.chunks st) in *.
  destruct (border_srcs_range k rule chs Hl Hk) as [HSP HDT].
  destruct (multi_phaseA k rule chs Hk Hl) as (L1 & V1 & C1).
  set (chs1 := map (Multi.chunk_task rule) (chunk_results rule 0 chs)) in *.
  destruct (multi_update_neighbors_fold k st rule true _ Hk Hr HSP chs1 _ (eq_trans L1 Hl) C1)
    as (L2 & V2 & C2).
  match type of L2 with length ?x = _ => set (chs2 := x) in * end.
  destruct (multi_update_neighbors_fold k st rule false _ Hk Hr HDT chs2 _
              (eq_trans L2 (eq_trans L1 Hl)) C2) as (L3 & V3 & C3).
  match type of L3 with length ?x = _ => set (chs3 := x) in * end.
  cbn [Multi.chunks Multi.chunk_radius Multi.chunk_count].
  split; [|split; [|split; [exact Hr | split; [reflexivity | exact (eq_trans L3 (eq_trans L2 (eq_trans L1 Hl)))]]]].
  - intros j Hj; rewrite V3, V2; exact (V1 j Hj).
  - intros j Hj; rewrite (C3 j Hj), <- !apply_ops_app, <- !signed_ops_app.
    apply (f_equal (fun f => f j)), phaseB_perm, signed_ops_perm.
    apply multi_srcs_perm; auto.
Qed.

(** ** The three engines side by side *)

(** [N] calls of a step that may panic. *)
Fixpoint run {St : Type} (step : St -> option St) (N : nat) (s : St) : option St :=
  match N with
  | O => Some s
  | S N' => match step s with
            | Some s' => run step N' s'
            | None => None
            end
  end.

(** An engine state holds the value array [V] and the neighbour-count array
    [C] of a grid of side [b = k * CHUNK_SIZE], in the layout
    [x + y*b + z*b^2]. *)
Definition single_rep (b : Z) (st : Single.LeddooSingleThreaded) (V C : Z -> Z) : Prop :=
  Single.size st = b /\
  eq_on (b * b * b) (single_V (Single.cells st)) V /\
  eq_on (b * b * b) (single_C (Single.cells st)) C.

Definition multi_rep (k : Z) (st : Multi.Chunks) (V C : Z -> Z) : Prop :=
  Multi.chunk_radius st = k /\ length (Multi.chunks st) = Z.to_nat (k * k * k) /\
  eq_on ((k * CHUNK_SIZE) * (k * CHUNK_SIZE) * (k * CHUNK_SIZE)) (multi_V k (Multi.chunks st)) V /\
  eq_on ((k * CHUNK_SIZE) * (k * CHUNK_SIZE) * (k * CHUNK_SIZE)) (multi_C k (Multi.chunks st)) C.

Definition atomic_rep (k : Z) (st : Atomic.LeddooAtomic) (V C : Z -> Z) : Prop :=
  Atomic.chunk_radius st = k /\ Atomic.chunk_count st = k * k * k /\
  eq_on ((k * CHUNK_SIZE) * (k * CHUNK_SIZE) * (k * CHUNK_SIZE)) (Atomic.values st) V /\
  eq_on ((k * CHUNK_SIZE) * (k * CHUNK_SIZE) * (k * CHUNK_SIZE)) (Atomic.neighbors st) C.

(** The three engines hold the same grid. *)
Definition same_grid (k : Z) (s : Single.LeddooSingleThreaded) (m : Multi.Chunks)
    (a : Atomic.LeddooAtomic) (V C : Z -> Z) : Prop :=
  single_rep (k * CHUNK_SIZE) s V C /\ multi_rep k m V C /\ atomic_rep k a V C.

(** [ref_step] only reads the grid's cells. *)
Lemma ref_step_eq_on (rule : Rule) (b : Z) (V C V2 C2 : Z -> Z) :
  eq_on (b * b * b) V V2 -> eq_on (b * b * b) C C2 ->
  match ref_step rule b V C, ref_step rule b V2 C2 with
  | Some (V', C'), Some (V2', C2') => eq_on (b * b * b) V' V2' /\ eq_on (b * b * b) C' C2'
  | None, None => True
  | _, _ => False
  end.
Proof.
  intros HV HC; unfold ref_step.
  rewrite (forallb_ext_on (fun j => cell_ok rule (V j) (C j)) (fun j => cell_ok rule (V2 j) (C2 j)))
    by (intros j Hj; apply zrange_In in Hj; rewrite HV, HC by exact Hj; reflexivity).
  destruct (forallb _ _); [|exact I]; split.
  - intros j Hj; rewrite HV, HC by exact Hj; reflexivity.
  - rewrite (flat_map_ext_on (fun j => src_of j (change_of rule (V j) (C j)))
                             (fun j => src_of j (change_of rule (V2 j) (C2 j))))
      by (intros j Hj; apply zrange_In in Hj; rewrite HV, HC by exact Hj; reflexivity).
    intros j Hj; apply (apply_ops_eq_on _ _ _ (b * b * b)); [exact HC | exact Hj].
Qed.

Lemma single_step_rep (rule : Rule) (b : Z) (s : Single.LeddooSingleThreaded) (V C : Z -> Z) :
  bounding_size rule = b -> single_rep b s V C ->
  match Single.update s rule, ref_step rule b V C with
  | Some s', Some (V', C') => single_rep b s' V' C'
  | None, None => True
  | _, _ => False
  end.
Proof.
  intros Hb (Hs & HV & HC).
  pose proof (single_update_ref s rule b Hs Hb) as H1.
  pose proof (ref_step_eq_on rule b _ _ V C HV HC) as H2.
  revert H1 H2.
  destruct (Single.update s rule) as [s'|],
    (ref_step rule b (single_V (Single.cells s)) (single_C (Single.cells s))) as [[V1 C1]|],
    (ref_step rule b V C) as [[V2 C2]|]; intros H1 H2; try contradiction; try exact I.
  destruct H1 as (A1 & B1 & E1), H2 as (A2 & B2).
  split; [exact E1 | split; intros j Hj].
  - rewrite A1, A2 by exact Hj; reflexivity.
  - rewrite B1, B2 by exact Hj; reflexivity.
Qed.

Lemma multi_step_rep (rule : Rule) (k : Z) (m : Multi.Chunks) (V C : Z -> Z) :
  1 <= k -> multi_rep k m V C ->
  match Multi.update m rule, ref_step rule (k * CHUNK_SIZE) V C with
  | Some m', Some (V', C') => multi_rep k m' V' C'
  | None, None => True
  | _, _ => False
  end.
Proof.
  intros Hk (Hr & Hl & HV & HC).
  pose proof (multi_update_ref m rule k Hk Hr Hl) as H1.
  pose proof (ref_step_eq_on rule (k * CHUNK_SIZE) _ _ V C HV HC) as H2.
  revert H1 H2.
  destruct (Multi.update m rule) as [m'|],
    (ref_step rule (k * CHUNK_SIZE) (multi_V k (Multi.chunks m)) (multi_C k (Multi.chunks m)))
      as [[V1 C1]|],
    (ref_step rule (k * CHUNK_SIZE) V C) as [[V2 C2]|]; intros H1 H2; try contradiction; try exact I.
  destruct H1 as (A1 & B1 & R1 & _ & L1), H2 as (A2 & B2).
  split; [exact R1 | split; [exact L1 | split; intros j Hj]].
  - rewrite A1, A2 by exact Hj; reflexivity.
  - rewrite B1, B2 by exact Hj; reflexivity.
Qed.

Lemma atomic_step_rep (rule : Rule) (k : Z) (a : Atomic.LeddooAtomic) (V C : Z -> Z) :
  1 <= k -> atomic_rep k a V C ->
  match Atomic.update a rule, ref_step rule (k * CHUNK_SIZE) V C with
  | Some a', Some (V', C') => atomic_rep k a' V' C'
  | None, None => True
  | _, _ => False
  end.
Proof.
  intros Hk (Hr & Hc & HV & HC).
  pose proof (atomic_update_ref a rule k Hk Hr Hc) as H1.
  pose proof (ref_step_eq_on rule (k * CHUNK_SIZE) _ _ V C HV HC) as H2.
  revert H1 H2.
  destruct (Atomic.update a rule) as [a'|],
    (ref_step rule (k * CHUNK_SIZE) (Atomic.values a) (Atomic.neighbors a)) as [[V1 C1]|],
    (ref_step rule (k * CHUNK_SIZE) V C) as [[V2 C2]|]; intros H1 H2; try contradiction; try exact I.
  destruct H1 as (A1 & B1 & R1 & K1), H2 as (A2 & B2).
  split; [exact R1 | split; [exact K1 | split; intros j Hj]].
  - rewrite A1, A2 by exact Hj; reflexivity.
  - rewrite B1, <- B2 by exact Hj; reflexivity.
Qed.

(** One update of each engine, from the same grid. *)
Lemma engines_step (rule : Rule) (k : Z) (s : Single.LeddooSingleThreaded) (m : Multi.Chunks)
    (a : Atomic.LeddooAtomic) (V C : Z -> Z) :
  1 <= k -> bounding_size rule = k * CHUNK_SIZE -> same_grid k s m a V C ->
  match Single.update s rule, Multi.update m rule, Atomic.update a rule with
  | Some s', Some m', Some a' => exists V' C', same_grid k s' m' a' V' C'
  | None, None, None => True
  | _, _, _ => False
  end.
Proof.
  intros Hk Hb (HS & HM & HA).
  pose proof (single_step_rep rule _ s V C Hb HS) as E1.
  pose proof (multi_step_rep rule k m V C Hk HM) as E2.
  pose proof (atomic_step_rep rule k a V C Hk HA) as E3.
  revert E1 E2 E3.
  destruct (Single.update s rule) as [s'|], (Multi.update m rule) as [m'|],
    (Atomic.update a rule) as [a'|], (ref_step rule (k * CHUNK_SIZE) V C) as [[V' C']|];
    intros E1 E2 E3; try contradiction; try exact I.
  exists V', C'; split; [exact E1 | split; [exact E2 | exact E3]].
Qed.

(** A store of one chunk holds that chunk's cells in the grid's layout. *)
Lemma multi_one_chunk (ch : Multi.Chunk) (j : Z) :
  0 <= j < (1 * CHUNK_SIZE) * (1 * CHUNK_SIZE) * (1 * CHUNK_SIZE) ->
  mcell_flat 1 [ch] j = ch j.
Proof.
  intros Hj; destruct (cci_of_flat 1 j ltac:(lia) Hj) as (Hc & Ho & Ej).
  unfold mcell_flat; revert Hc Ho Ej.
  set (c := pos_chunk 1 _); set (o := pos_offset _); intros Hc Ho Ej.
  assert (c = 0) as Ec by lia; rewrite Ec in Ej |- *.
  unfold chunk_cell_index, chunk_cell_pos, chunk_offset_to_pos in Ej.
  replace (vadd (vscale CHUNK_SIZE (index_to_pos 0 1)) (index_to_pos o CHUNK_SIZE))
    with (index_to_pos o CHUNK_SIZE) in Ej
    by (unfold vadd, vscale; destruct (index_to_pos o CHUNK_SIZE) as [x y z]; cbn; f_equal; lia).
  rewrite Z.mul_1_l, index_pos_roundtrip in Ej by (unfold CHUNK_SIZE; lia).
  rewrite <- Ej; reflexivity.
Qed.

(** * Claims *)

(** ** C5 *)

(** C5: the single-threaded engine's [index_to_vec] and [vec_to_index] are
    mutual inverses: a position of [[0, size)^3] survives the round trip
    through its flat index [x + y*size + z*size^2], and an index of
    [[0, size^3)] survives the round trip through its position. *)
Theorem index_roundtrip (size : Z) (Hsize : 0 < size) :
  (forall p, in_box size p -> index_to_vec size (vec_to_index size p) = p) /\
  (forall i, 0 <= i < size * size * size -> vec_to_index size (index_to_vec size i) = i).
Proof.
  split.
  - intros p Hp; exact (pos_index_roundtrip p size Hsize Hp).
  - intros i _; exact (index_pos_roundtrip i size Hsize).
Qed.

Lemma index_roundtrip_witness :
  0 < 32 /\
  (forall p, in_box 32 p -> index_to_vec 32 (vec_to_index 32 p) = p) /\
  (forall i, 0 <= i < 32 * 32 * 32 -> vec_to_index 32 (index_to_vec 32 i) = i).
Proof. split; [lia | apply (index_roundtrip 32); lia]. Defined.

(** ** C6 *)

(** C6 (on [utils::wrap], modelled from the spec): for a bound [b > 0],
    every coordinate of [wrap pos b] lies in [[0, b)] and is congruent
    modulo [b] to the matching coordinate of [pos]. *)
Theorem wrap_correct (pos : IVec3) (b : Z) (Hb : 0 < b) :
  in_box b (wrap pos b) /\
  (px (wrap pos b) - px pos) mod b = 0 /\
  (py (wrap pos b) - py pos) mod b = 0 /\
  (pz (wrap pos b) - pz pos) mod b = 0.
Proof.
  split; [apply wrap_box; exact Hb|].
  destruct pos as [x y z]; unfold wrap; simpl.
  rewrite !Zminus_mod_idemp_l, !Z.sub_diag, !Zmod_0_l; auto.
Qed.

Lemma wrap_correct_witness :
  0 < 32 /\
  (in_box 32 (wrap (ivec3 (-1) 33 5) 32) /\
   (px (wrap (ivec3 (-1) 33 5) 32) - px (ivec3 (-1) 33 5)) mod 32 = 0 /\
   (py (wrap (ivec3 (-1) 33 5) 32) - py (ivec3 (-1) 33 5)) mod 32 = 0 /\
   (pz (wrap (ivec3 (-1) 33 5) 32) - pz (ivec3 (-1) 33 5)) mod 32 = 0).
Proof. split; [lia | apply (wrap_correct (ivec3 (-1) 33 5) 32); lia]. Defined.

(** ** C7 *)

(** C7 ([Chunks::set_bounds]): a store of radius 1 holding one live cell,
    asked for bound 64, reports the new bound 64 but keeps its old chunk
    (and the live cell) instead of discarding it: [cell_count] is still 1. *)
Theorem chunks_set_bounds_keeps_cells :
  let c := {| Multi.chunks := [upd Multi.chunk_default 0 (Multi.mkCell 1 0)];
              Multi.chunk_radius := 1; Multi.chunk_count := 1 |} in
  Multi.bounds c = 32 /\ Multi.cell_count c = 1 /\
  snd (Multi.set_bounds c 64) = 64 /\
  Multi.cell_count (fst (Multi.set_bounds c 64)) = 1.
Proof. vm_compute. repeat split. Qed.

(** ** C10 *)



(** ** C4 *)

(** C4: in the atomic engine with bound [k * 32], a source index whose
    chunk-local position is not within one step of a chunk face
    ([chunk_is_border_pos local 1 = false]) has every local coordinate in
    [2..=29], and for every direction of either topology the unwrapped
    neighbour [pos + dir] is inside the grid, in the same chunk
    ([(pos + dir) / 32 = pos / 32]), equal to its wrapped position, and its
    flat index is a valid index of the arrays. *)
Theorem interior_neighbors_in_chunk (k index : Z) (m : NeighbourMethod)
    (Hk : 1 <= k)
    (Hi : 0 <= index < (k * CHUNK_SIZE) * (k * CHUNK_SIZE) * (k * CHUNK_SIZE))
    (Hint : chunk_is_border_pos (vrem (index_to_pos index (k * CHUNK_SIZE)) CHUNK_SIZE) 1
            = false) :
  let pos := index_to_pos index (k * CHUNK_SIZE) in
  let local := vrem pos CHUNK_SIZE in
  (2 <= px local <= 29 /\ 2 <= py local <= 29 /\ 2 <= pz local <= 29) /\
  forall dir, In dir (get_neighbour_iter m) ->
    in_box (k * CHUNK_SIZE) (vadd pos dir) /\
    vquot (vadd pos dir) CHUNK_SIZE = vquot pos CHUNK_SIZE /\
    wrap (vadd pos dir) (k * CHUNK_SIZE) = vadd pos dir /\
    0 <= pos_to_index (vadd pos dir) (k * CHUNK_SIZE)
      < (k * CHUNK_SIZE) * (k * CHUNK_SIZE) * (k * CHUNK_SIZE).
Proof.
  intros pos local; split.
  - apply border_false_local; exact Hint.
  - intros dir Hd.
    destruct (interior_step k index m dir Hk Hi Hint Hd) as (A & B & C).
    split; [exact A | split; [exact B | split; [exact C |]]].
    apply pos_to_index_range; exact A.
Qed.

Lemma interior_neighbors_in_chunk_witness :
  1 <= 2 /\
  0 <= 20805 < (2 * CHUNK_SIZE) * (2 * CHUNK_SIZE) * (2 * CHUNK_SIZE) /\
  chunk_is_border_pos (vrem (index_to_pos 20805 (2 * CHUNK_SIZE)) CHUNK_SIZE) 1 = false /\
  (let pos := index_to_pos 20805 (2 * CHUNK_SIZE) in
   let local := vrem pos CHUNK_SIZE in
   (2 <= px local <= 29 /\ 2 <= py local <= 29 /\ 2 <= pz local <= 29) /\
   forall dir, In dir (get_neighbour_iter Moore) ->
     in_box (2 * CHUNK_SIZE) (vadd pos dir) /\
     vquot (vadd pos dir) CHUNK_SIZE = vquot pos CHUNK_SIZE /\
     wrap (vadd pos dir) (2 * CHUNK_SIZE) = vadd pos dir /\
     0 <= pos_to_index (vadd pos dir) (2 * CHUNK_SIZE)
       < (2 * CHUNK_SIZE) * (2 * CHUNK_SIZE) * (2 * CHUNK_SIZE)).
Proof.
  split; [lia | split; [unfold CHUNK_SIZE; lia | split; [vm_compute; reflexivity |]]].
  apply (interior_neighbors_in_chunk 2 20805 Moore);
    [lia | unfold CHUNK_SIZE; lia | vm_compute; reflexivity].
Defined.
